(** * DiscordTranslationBot: the fallback-chain translator of [src/index.js]

    A shallow embedding of [preProcessText], [translateDeepL],
    [translateLibreAt], [translateLibre], [translateGooglePublic] and
    [smartTranslate], followed by the properties the specification states
    about them.

    Conventions.
    - A JavaScript string is the list of its UTF-16 code units.
    - A value obtained from [res.json()] is a JSON value; [undefined] is
      [None] of an [option].
    - An [async] function is a computation in the monad [M]: it reads and
      advances the state of the outside world (the network), records the
      events it causes in a trace, and either returns or throws.
    - Every request handed to [fetch] is answered or rejected; a timeout
      of [withTimeout] shows as a rejection. *)

From Stdlib Require Import String Ascii DecimalString List PeanoNat NArith Bool Lia.
Import ListNotations.

Local Open Scope N_scope.
Local Open Scope list_scope.
Set Warnings "-register-all".

(* ================================================================== *)
(** ** Strings *)

Definition jsstring : Type := list N.

(** An ASCII literal of the source, as code units. *)
Definition lit (s : string) : jsstring :=
  map N_of_ascii (list_ascii_of_string s).

Fixpoint str_eqb (a b : jsstring) : bool :=
  match a, b with
  | [], [] => true
  | x :: a', y :: b' => (x =? y) && str_eqb a' b'
  | _, _ => false
  end.

(** [s || ''] and the truthiness of a string: only [''] is falsy. *)
Definition str_truthy (s : jsstring) : bool :=
  match s with [] => false | _ :: _ => true end.

(** *** [String.prototype.trim]

    WhiteSpace and LineTerminator code points of ECMAScript; all of them
    are single code units. *)
Definition is_white_space (c : N) : bool :=
  existsb (N.eqb c)
    [9; 10; 11; 12; 13; 32; 160; 5760; 8232; 8233; 8239; 8287; 12288; 65279]
  || ((8192 <=? c) && (c <=? 8202)).

Fixpoint trimStart (s : jsstring) : jsstring :=
  match s with
  | c :: s' => if is_white_space c then trimStart s' else s
  | [] => []
  end.

Definition trimEnd (s : jsstring) : jsstring := rev (trimStart (rev s)).

Definition trim (s : jsstring) : jsstring := trimEnd (trimStart s).

(** *** Case conversion

    On a string of ASCII code units [toLowerCase] and [toUpperCase] are
    the ASCII mappings.  On any other string they are the Unicode case
    mappings of the runtime, which are taken as given ([unicode_lower],
    [unicode_upper] below). *)
Definition is_ascii (c : N) : bool := c <? 128.

Definition ascii_lower (c : N) : N :=
  if (65 <=? c) && (c <=? 90) then c + 32 else c.

Definition ascii_upper (c : N) : N :=
  if (97 <=? c) && (c <=? 122) then c - 32 else c.

(** *** [split], [includes], [replace(/\/+$/, '')], [slice(0, n)] *)

(** [s.split(sep)[0]]: the code units before the first [sep]. *)
Fixpoint split_head (sep : N) (s : jsstring) : jsstring :=
  match s with
  | [] => []
  | c :: s' => if c =? sep then [] else c :: split_head sep s'
  end.

(** [s.split(sep)] for a one-unit separator; never empty. *)
Fixpoint split (sep : N) (s : jsstring) : list jsstring :=
  match s with
  | [] => [[]]
  | c :: s' =>
      if c =? sep then [] :: split sep s'
      else match split sep s' with
           | h :: t => (c :: h) :: t
           | [] => [[c]]
           end
  end.

Fixpoint starts_with (p s : jsstring) : bool :=
  match p, s with
  | [], _ => true
  | x :: p', y :: s' => (x =? y) && starts_with p' s'
  | _ :: _, [] => false
  end.

Fixpoint includes (s needle : jsstring) : bool :=
  starts_with needle s
  || match s with
     | [] => false
     | _ :: s' => includes s' needle
     end.

(** [s.replace(/\/+$/, '')]: all trailing slashes removed. *)
Fixpoint drop_slashes (s : jsstring) : jsstring :=
  match s with
  | c :: s' => if c =? 47 then drop_slashes s' else s
  | [] => []
  end.

Definition strip_trailing_slashes (s : jsstring) : jsstring :=
  rev (drop_slashes (rev s)).

Definition slice0 (n : nat) (s : jsstring) : jsstring := firstn n s.

(** [parts.join(sep)] for parts that are already strings. *)
Fixpoint join (sep : jsstring) (parts : list jsstring) : jsstring :=
  match parts with
  | [] => []
  | [p] => p
  | p :: rest => p ++ sep ++ join sep rest
  end.

(** *** [encodeURIComponent]

    Throws [URIError] (here [None]) on an unpaired surrogate. *)
Definition uri_unreserved (c : N) : bool :=
  ((65 <=? c) && (c <=? 90)) || ((97 <=? c) && (c <=? 122))
  || ((48 <=? c) && (c <=? 57))
  || existsb (N.eqb c) [45; 95; 46; 33; 126; 42; 39; 40; 41].

Definition hex_digit (d : N) : N := if d <? 10 then 48 + d else 55 + d.

Definition percent (octet : N) : jsstring :=
  [37; hex_digit (octet / 16); hex_digit (octet mod 16)].

Definition utf8 (v : N) : list N :=
  if v <? 128 then [v]
  else if v <? 2048 then [192 + v / 64; 128 + v mod 64]
  else if v <? 65536 then
    [224 + v / 4096; 128 + (v / 64) mod 64; 128 + v mod 64]
  else
    [240 + v / 262144; 128 + (v / 4096) mod 64;
     128 + (v / 64) mod 64; 128 + v mod 64].

Definition is_high_surrogate (c : N) : bool := (55296 <=? c) && (c <=? 56319).
Definition is_low_surrogate (c : N) : bool := (56320 <=? c) && (c <=? 57343).

Definition escape (v : N) : jsstring := concat (map percent (utf8 v)).

Fixpoint encodeURIComponent (s : jsstring) : option jsstring :=
  match s with
  | [] => Some []
  | c :: s' =>
      if uri_unreserved c then option_map (cons c) (encodeURIComponent s')
      else if is_low_surrogate c then None
      else if is_high_surrogate c then
        match s' with
        | c2 :: s'' =>
            if is_low_surrogate c2 then
              option_map
                (app (escape ((c - 55296) * 1024 + (c2 - 56320) + 65536)))
                (encodeURIComponent s'')
            else None
        | [] => None
        end
      else option_map (app (escape c)) (encodeURIComponent s')
  end.

(* ================================================================== *)
(** ** What the JavaScript runtime provides

    The representation of JSON numbers with their truthiness and
    [ToString], and the Unicode case mappings on strings that are not
    pure ASCII. *)

Class Runtime : Type := {
  number : Type;
  number_truthy : number -> bool;
  number_toString : number -> jsstring;
  unicode_lower : jsstring -> jsstring;
  unicode_upper : jsstring -> jsstring
}.

(** The variables of [process.env] the program reads; [None] is an unset
    variable. *)
Class Process : Type := {
  DEEPL_KEY : option jsstring;
  LIBRETRANSLATE_URLS_env : option jsstring
}.

Section Program.

Context {RT : Runtime} {PR : Process}.

Definition toLowerCase (s : jsstring) : jsstring :=
  if forallb is_ascii s then map ascii_lower s else unicode_lower s.

Definition toUpperCase (s : jsstring) : jsstring :=
  if forallb is_ascii s then map ascii_upper s else unicode_upper s.

(* ================================================================== *)
(** ** JSON values, as [res.json()] yields them *)

Inductive value : Type :=
| JNull
| JBool (b : bool)
| JNum (n : number)
| JStr (s : jsstring)
| JArr (items : list value)
| JObj (fields : list (jsstring * value)).

(** [Boolean(v)] *)
Definition truthy (v : value) : bool :=
  match v with
  | JNull => false
  | JBool b => b
  | JNum n => number_truthy n
  | JStr s => str_truthy s
  | JArr _ | JObj _ => true
  end.

Definition truthy_opt (o : option value) : bool :=
  match o with Some v => truthy v | None => false end.

(** Own property [k] of a parsed object. *)
Fixpoint own (k : jsstring) (fields : list (jsstring * value)) : option value :=
  match fields with
  | [] => None
  | (k', v) :: rest => if str_eqb k k' then Some v else own k rest
  end.

(** [o?.k] for a property name [k] that no built-in prototype defines
    (as [translations], [text] and [translatedText]): only a parsed
    object can have it. *)
Definition prop (k : jsstring) (o : option value) : option value :=
  match o with
  | Some (JObj fields) => own k fields
  | _ => None
  end.

(** [o?.[0]]: element 0 of an array, the first code unit of a string,
    property ["0"] of an object, [undefined] otherwise. *)
Definition index0 (o : option value) : option value :=
  match o with
  | Some (JArr items) => nth_error items 0
  | Some (JStr (c :: _)) => Some (JStr [c])
  | Some (JObj fields) => own (lit "0") fields
  | _ => None
  end.

(** [o || d] *)
Definition or_else (o : option value) (d : value) : value :=
  match o with
  | Some v => if truthy v then v else d
  | None => d
  end.

(** All the results, or [None] when one of them is [None]. *)
Fixpoint all_some {A} (l : list (option A)) : option (list A) :=
  match l with
  | [] => Some []
  | None :: _ => None
  | Some a :: l' => option_map (cons a) (all_some l')
  end.

(** [ToString] on a JSON value; [None] is the [TypeError] "cannot convert
    object to primitive value".  A parsed object has no callable
    property: with an own [toString] key neither that nor the inherited
    [valueOf] gives a primitive, and the conversion throws; without one
    the inherited [toString] gives ["[object Object]"].  An array is
    joined with [","], its [null] elements contributing the empty
    string. *)
Fixpoint toStr (v : value) : option jsstring :=
  match v with
  | JNull => Some (lit "null")
  | JBool true => Some (lit "true")
  | JBool false => Some (lit "false")
  | JNum n => Some (number_toString n)
  | JStr s => Some s
  | JArr items =>
      option_map (join (lit ","))
        (all_some
           (map (fun x => match x with JNull => Some [] | _ => toStr x end)
              items))
  | JObj fields =>
      match own (lit "toString") fields with
      | Some _ => None
      | None => Some (lit "[object Object]")
      end
  end.

(** [items.join(sep)] on an array whose elements may be [undefined];
    [None] when the [ToString] of an element throws. *)
Definition join_values (sep : jsstring) (items : list (option value))
  : option jsstring :=
  option_map (join sep)
    (all_some
       (map (fun x => match x with
                      | None | Some JNull => Some []
                      | Some v => toStr v
                      end) items)).

(* ================================================================== *)
(** ** Requests, responses and errors *)

Inductive http_method : Type := GET | POST.

Inductive body : Type :=
| NoBody
| FormBody (params : list (jsstring * jsstring))   (* URLSearchParams *)
| JsonBody (payload : value).                      (* JSON.stringify(payload) *)

Record request : Type := {
  req_url : jsstring;
  req_method : http_method;
  req_headers : list (jsstring * jsstring);
  req_body : body;
  req_abort_after : option N    (* milliseconds until the signal aborts *)
}.

(** What is thrown.  [RuntimeError] stands for the error objects the
    runtime and node-fetch create (rejections of [fetch] and of
    [res.json()]); the others are the errors the program itself
    constructs, with the values their message is built from. *)
Inductive exn : Type :=
| RuntimeError (message : jsstring)
| TypeError_map_is_not_a_function
| TypeError_cannot_convert_object
| URIError_malformed
| DeepLError (status : N)
| LibreStatusError (status : N) (baseUrl bodyTxt : jsstring)
| LibreContentTypeError (ct baseUrl bodyTxt : jsstring)
| LibreJsonError (baseUrl bodyTxt : jsstring)
| NoLibreEndpointError
| GoogleError (status : N).

Record response : Type := {
  res_status : N;
  res_content_type : option jsstring;   (* headers.get('content-type') *)
  res_text : option jsstring;           (* res.text(); None = rejected *)
  res_json : exn + value                (* res.json(); inl = rejected *)
}.

(** [res.ok] *)
Definition res_ok (res : response) : bool :=
  (200 <=? res_status res) && (res_status res <? 300).

(** [await res.text().catch(() => '')] *)
Definition text_or_empty (res : response) : jsstring :=
  match res_text res with Some t => t | None => [] end.

(* ================================================================== *)
(** ** Events *)

(** A run leaves a trace of three kinds of events: the entry of a
    provider function with its arguments (what a test double would count
    as a call), a request handed to [fetch], and a [console.warn] line. *)
Inductive call : Type :=
| CallDeepL (text target : jsstring)
| CallLibre (text to : jsstring)
| CallLibreAt (baseUrl text to : jsstring)
| CallGoogle (text to : jsstring).

(** The [console.warn] lines, by their template and the error shown. *)
Inductive warning : Type :=
| WarnLibreAt (base : jsstring) (e : exn)   (* [Libre] Falhou em ... *)
| WarnDeepL (e : exn)                       (* DeepL falhou ... *)
| WarnLibre (e : exn)                       (* Libre falhou ... *)
| WarnGoogle (e : exn).                     (* Google publico falhou ... *)

Inductive event : Type :=
| Enter (c : call)
| Fetch (r : request)
| Warn (w : warning).

(* ================================================================== *)
(** ** The network and the monad of [async] functions *)

(** The outside world answers each [fetch] from its current state and
    moves to a next state. *)
Class Network : Type := {
  world : Type;
  net : request -> world -> (exn + response) * world
}.

Context {NW : Network}.

Inductive outcome (A : Type) : Type :=
| Returned (a : A)
| Thrown (e : exn).
Arguments Returned {A} a.
Arguments Thrown {A} e.

(** Outcome, next state of the world, events caused (oldest first). *)
Definition M (A : Type) : Type := world -> outcome A * world * list event.

Definition ret {A} (a : A) : M A := fun w => (Returned a, w, []).

Definition throw {A} (e : exn) : M A := fun w => (Thrown e, w, []).

Definition bind {A B} (m : M A) (k : A -> M B) : M B :=
  fun w =>
    match m w with
    | (Returned a, w1, t1) =>
        match k a w1 with (r, w2, t2) => (r, w2, t1 ++ t2) end
    | (Thrown e, w1, t1) => (Thrown e, w1, t1)
    end.

(** [try { return await m } catch (e) { h e }] *)
Definition try_catch {A} (m : M A) (h : exn -> M A) : M A :=
  fun w =>
    match m w with
    | (Returned a, w1, t1) => (Returned a, w1, t1)
    | (Thrown e, w1, t1) =>
        match h e w1 with (r, w2, t2) => (r, w2, t1 ++ t2) end
    end.

Definition emit (ev : event) : M unit := fun w => (Returned tt, w, [ev]).

Definition enter (c : call) : M unit := emit (Enter c).

Definition warn (x : warning) : M unit := emit (Warn x).

(** [await fetch(...)] *)
Definition fetch (r : request) : M response :=
  fun w =>
    match net r w with
    | (inr res, w1) => (Returned res, w1, [Fetch r])
    | (inl e, w1) => (Thrown e, w1, [Fetch r])
    end.

(** [await res.json()] *)
Definition json_of (res : response) : M value :=
  match res_json res with
  | inr v => ret v
  | inl e => throw e
  end.

Definition result_of {A} (x : outcome A * world * list event) : outcome A :=
  fst (fst x).
Definition world_of {A} (x : outcome A * world * list event) : world :=
  snd (fst x).
Definition trace_of {A} (x : outcome A * world * list event) : list event :=
  snd x.

End Program.

Arguments Returned {A} a.
Arguments Thrown {A} e.

Declare Scope js_scope.
Delimit Scope js_scope with js.
Notation "x <- m ;; k" := (bind m (fun x => k))
  (at level 61, m at next level, right associativity) : js_scope.
Notation "m ;; k" := (bind m (fun _ => k))
  (at level 61, right associativity) : js_scope.

(* ================================================================== *)
(** ** The program *)

Section Translator.

Context {RT : Runtime} {PR : Process} {NW : Network}.
Local Open Scope js_scope.

(** *** Configuration *)

Definition DEEPL_SUPPORTED_TARGETS : list jsstring :=
  map lit
    ["BG"; "CS"; "DA"; "DE"; "EL"; "EN"; "EN-GB"; "EN-US"; "ES"; "ET"; "FI";
     "FR"; "HU"; "ID"; "IT"; "JA"; "KO"; "LT"; "LV"; "NB"; "NL"; "PL"; "PT";
     "PT-PT"; "PT-BR"; "RO"; "RU"; "SK"; "SL"; "SV"; "TR"; "UK"; "ZH"]%string.

(** [set.has(x)] *)
Definition Set_has (set : list jsstring) (x : jsstring) : bool :=
  existsb (str_eqb x) set.

(** The destructuring default applies to an unset variable only. *)
Definition LIBRETRANSLATE_URLS : jsstring :=
  match LIBRETRANSLATE_URLS_env with
  | Some s => s
  | None => lit "https://libretranslate.de,http://localhost:5000"
  end.

(** [(LIBRETRANSLATE_URLS || '').split(',').map(s => s.trim()).filter(Boolean)] *)
Definition LIBRE_ENDPOINTS : list jsstring :=
  filter str_truthy (map trim (split 44 LIBRETRANSLATE_URLS)).

(** *** [preProcessText] *)

Definition dict : list (jsstring * jsstring) :=
  [ ([0x3082; 0x3057; 0x20; 0x3082; 0x3057], lit "hello");
    ([0x3082; 0x3057; 0x3082; 0x3057], lit "hello");
    ([0x3053; 0x3093; 0x306b; 0x3061; 0x306f], lit "hello");
    ([0x3053; 0x3093; 0x3070; 0x3093; 0x306f], lit "good evening");
    ([0x3042; 0x308a; 0x304c; 0x3068; 0x3046], lit "thank you");
    (lit "afrikaans dankie", lit "thank you");
    (lit "dankie", lit "thank you") ].

(** [map.get(k)] on a [Map] built from pairs with distinct keys. *)
Fixpoint Map_get (k : jsstring) (m : list (jsstring * jsstring)) : option jsstring :=
  match m with
  | [] => None
  | (k', v) :: rest => if str_eqb k k' then Some v else Map_get k rest
  end.

(** [text] is a string, so [(text || '')] is [text]. *)
Definition preProcessText (text : jsstring) : jsstring :=
  let t := toLowerCase (trim text) in
  match Map_get t dict with
  | Some v => if str_truthy v then v else text
  | None => text
  end.

(** *** [translateDeepL] *)

Definition DEEPL_KEY_text : jsstring :=
  match DEEPL_KEY with Some k => k | None => lit "undefined" end.

Definition deepl_request (text target : jsstring) : request :=
  {| req_url := lit "https://api-free.deepl.com/v2/translate";
     req_method := POST;
     req_headers :=
       [ (lit "Authorization", lit "DeepL-Auth-Key " ++ DEEPL_KEY_text);
         (lit "Content-Type", lit "application/x-www-form-urlencoded") ];
     req_body := FormBody [(lit "text", text); (lit "target_lang", target)];
     req_abort_after := None |}.

(** [data?.translations?.[0]?.text] *)
Definition deepl_field (data : value) : option value :=
  prop (lit "text") (index0 (prop (lit "translations") (Some data))).

Definition translateDeepL (text target : jsstring) : M value :=
  enter (CallDeepL text target) ;;
  res <- fetch (deepl_request text target) ;;
  if negb (res_ok res) then throw (DeepLError (res_status res))
  else
    data <- json_of res ;;
    ret (or_else (deepl_field data) (JStr text)).

(** *** [withTimeout] and [translateLibreAt] *)

(** The signal of [withTimeout(ms)]: the request is aborted, that is
    rejected, when it is not answered within [ms] milliseconds. *)
Definition withTimeout (ms : N) : option N := Some ms.

Definition libre_request (baseUrl text to : jsstring) : request :=
  {| req_url := strip_trailing_slashes baseUrl ++ lit "/translate";
     req_method := POST;
     req_headers :=
       [ (lit "Content-Type", lit "application/json");
         (lit "User-Agent", lit "Kingshot-TranslateBot/1.0 (+discord)") ];
     req_body :=
       JsonBody (JObj [ (lit "q", JStr text);
                        (lit "source", JStr (lit "auto"));
                        (lit "target", JStr to);
                        (lit "format", JStr (lit "text")) ]);
     req_abort_after := withTimeout 8000 |}.

(** [(res.headers.get('content-type') || '').toLowerCase()] *)
Definition content_type_of (res : response) : jsstring :=
  toLowerCase (match res_content_type res with Some c => c | None => [] end).

(** [data?.translatedText] *)
Definition libre_field (data : value) : option value :=
  prop (lit "translatedText") (Some data).

(** In the handler of the failed [res.json()] the body is already
    consumed, so [res.text()] rejects and [bodyTxt] is ['']. *)
Definition translateLibreAt (baseUrl text to : jsstring) : M value :=
  enter (CallLibreAt baseUrl text to) ;;
  res <- fetch (libre_request baseUrl text to) ;;
  if negb (res_ok res) then
    throw (LibreStatusError (res_status res) baseUrl
             (slice0 120 (text_or_empty res)))
  else
    let ct := content_type_of res in
    if negb (includes ct (lit "application/json")) then
      throw (LibreContentTypeError ct baseUrl (slice0 80 (text_or_empty res)))
    else
      data <- try_catch (json_of res)
                (fun _ => throw (LibreJsonError baseUrl (slice0 120 []))) ;;
      ret (or_else (libre_field data) (JStr text)).

(** *** [translateLibre] *)

(** The [for (const base of list)] loop with its [lastErr], and the
    [throw] after it. *)
Fixpoint translateLibre_loop (list : list jsstring) (text to : jsstring)
    (lastErr : option exn) : M value :=
  match list with
  | base :: rest =>
      try_catch (translateLibreAt base text to)
        (fun e =>
           warn (WarnLibreAt base e) ;;
           translateLibre_loop rest text to (Some e))
  | [] =>
      throw (match lastErr with Some e => e | None => NoLibreEndpointError end)
  end.

Definition libre_list : list jsstring :=
  match LIBRE_ENDPOINTS with
  | [] => [lit "https://libretranslate.de"]
  | _ :: _ => LIBRE_ENDPOINTS
  end.

Definition translateLibre (text to : jsstring) : M value :=
  enter (CallLibre text to) ;;
  translateLibre_loop libre_list text to None.

(** *** [translateGooglePublic] *)

Definition google_url (text to : jsstring) : option jsstring :=
  match encodeURIComponent to, encodeURIComponent text with
  | Some tl, Some q =>
      Some (lit "https://translate.googleapis.com/translate_a/single"
            ++ lit "?client=gtx&sl=auto&tl=" ++ tl ++ lit "&dt=t&q=" ++ q)
  | _, _ => None
  end.

Definition google_request (url : jsstring) : request :=
  {| req_url := url; req_method := GET; req_headers := [];
     req_body := NoBody; req_abort_after := None |}.

(** [(json?.[0] || []).map(seg => seg?.[0]).filter(Boolean)]; [None] when
    the receiver of [.map] is not an array. *)
Definition google_chunks (json : value) : option (list (option value)) :=
  match or_else (index0 (Some json)) (JArr []) with
  | JArr segs => Some (filter truthy_opt (map (fun seg => index0 (Some seg)) segs))
  | _ => None
  end.

Definition translateGooglePublic (text to : jsstring) : M value :=
  enter (CallGoogle text to) ;;
  match google_url text to with
  | None => throw URIError_malformed
  | Some url =>
      res <- fetch (google_request url) ;;
      if negb (res_ok res) then throw (GoogleError (res_status res))
      else
        json <- json_of res ;;
        match google_chunks json with
        | None => throw TypeError_map_is_not_a_function
        | Some chunks =>
            match join_values (lit " ") chunks with
            | None => throw TypeError_cannot_convert_object
            | Some joined =>
                ret (JStr (if str_truthy joined then joined else text))
            end
        end
  end.

(** *** [smartTranslate] *)

(** [targetDeepL.split('-')[0].toLowerCase()] *)
Definition targetBase_of (targetDeepL : jsstring) : jsstring :=
  toLowerCase (split_head 45 targetDeepL).

(** [DEEPL_KEY && DEEPL_SUPPORTED_TARGETS.has(targetDeepL.toUpperCase())] *)
Definition deepl_eligible (targetDeepL : jsstring) : bool :=
  match DEEPL_KEY with
  | Some k => str_truthy k
  | None => false
  end
  && Set_has DEEPL_SUPPORTED_TARGETS (toUpperCase targetDeepL).

(** The last [try]: Google, and the text itself when Google throws. *)
Definition google_or_original (text targetBase : jsstring) : M value :=
  try_catch (translateGooglePublic text targetBase)
    (fun e => warn (WarnGoogle e) ;; ret (JStr text)).

(** The second [try] and what follows it. *)
Definition libre_then_google (text targetBase : jsstring) : M value :=
  try_catch (translateLibre text targetBase)
    (fun e => warn (WarnLibre e) ;; google_or_original text targetBase).

Definition smartTranslate (original targetDeepL : jsstring) : M value :=
  let text := preProcessText original in
  let targetBase := targetBase_of targetDeepL in
  if deepl_eligible targetDeepL then
    try_catch (translateDeepL text targetDeepL)
      (fun e => warn (WarnDeepL e) ;; libre_then_google text targetBase)
  else libre_then_google text targetBase.

End Translator.


(* ================================================================== *)
(** ** Vocabulary of the properties *)

Section Observations.

Context {RT : Runtime} {PR : Process} {NW : Network}.

(** The key [preProcessText] looks up. *)
Definition lookup_key (text : jsstring) : jsstring := toLowerCase (trim text).

Definition is_string (v : value) : bool :=
  match v with JStr _ => true | _ => false end.

Definition thrown {A} (r : outcome A) : bool :=
  match r with Thrown _ => true | Returned _ => false end.

(** A run that happens after the events [t0]. *)
Definition after {A} (t0 : list event) (x : outcome A * world * list event)
  : outcome A * world * list event :=
  (result_of x, world_of x, t0 ++ trace_of x).

(** The provider functions entered during a run, in order. *)
Fixpoint entered (t : list event) : list call :=
  match t with
  | Enter c :: t' => c :: entered t'
  | _ :: t' => entered t'
  | [] => []
  end.

(** The pool endpoints attempted during a run, in order. *)
Fixpoint attempted (t : list event) : list jsstring :=
  match t with
  | Enter (CallLibreAt baseUrl _ _) :: t' => baseUrl :: attempted t'
  | _ :: t' => attempted t'
  | [] => []
  end.

Definition is_primary (c : call) : bool :=
  match c with CallDeepL _ _ => true | _ => false end.

(** *** Each provider's answer to the response it receives *)

Definition deepl_answer (text : jsstring) (a : exn + response) : outcome value :=
  match a with
  | inl e => Thrown e
  | inr res =>
      if res_ok res then
        match res_json res with
        | inr data => Returned (or_else (deepl_field data) (JStr text))
        | inl e => Thrown e
        end
      else Thrown (DeepLError (res_status res))
  end.

Definition libre_answer (baseUrl text : jsstring) (a : exn + response)
  : outcome value :=
  match a with
  | inl e => Thrown e
  | inr res =>
      if res_ok res then
        if includes (content_type_of res) (lit "application/json") then
          match res_json res with
          | inr data => Returned (or_else (libre_field data) (JStr text))
          | inl _ => Thrown (LibreJsonError baseUrl [])
          end
        else
          Thrown (LibreContentTypeError (content_type_of res) baseUrl
                    (slice0 80 (text_or_empty res)))
      else
        Thrown (LibreStatusError (res_status res) baseUrl
                  (slice0 120 (text_or_empty res)))
  end.

Definition google_answer (text : jsstring) (a : exn + response) : outcome value :=
  match a with
  | inl e => Thrown e
  | inr res =>
      if res_ok res then
        match res_json res with
        | inr json =>
            match google_chunks json with
            | Some chunks =>
                match join_values (lit " ") chunks with
                | Some joined =>
                    Returned (JStr (if str_truthy joined then joined else text))
                | None => Thrown TypeError_cannot_convert_object
                end
            | None => Thrown TypeError_map_is_not_a_function
            end
        | inl e => Thrown e
        end
      else Thrown (GoogleError (res_status res))
  end.

(** *** Responses a provider function goes on to read a field of *)

(** Primary and Last-Resort: success status and a body that parses. *)
Definition parsed_ok (res : response) (data : value) : Prop :=
  res_ok res = true /\ res_json res = inr data.

(** Pooled: moreover the content type names JSON. *)
Definition parsed_ok_as_json (res : response) (data : value) : Prop :=
  res_ok res = true
  /\ includes (content_type_of res) (lit "application/json") = true
  /\ res_json res = inr data.

(** *** The pool *)

(** [all_failed text to bs w es w' t]: from the world [w] the endpoints
    [bs] were attempted one after the other, once each; every attempt
    threw, the errors being [es] in order; the world is then [w'] and the
    events were [t]. *)
Inductive all_failed (text to : jsstring)
  : list jsstring -> world -> list exn -> world -> list event -> Prop :=
| all_failed_nil w : all_failed text to [] w [] w []
| all_failed_cons b bs w e w1 t1 es w2 t2 :
    translateLibreAt b text to w = (Thrown e, w1, t1) ->
    all_failed text to bs w1 es w2 t2 ->
    all_failed text to (b :: bs) w (e :: es) w2
      (t1 ++ Warn (WarnLibreAt b e) :: t2).

(** *** Where the orchestrator stands when a tier is reached *)

(** [reaches_pooled original target w w0 t0]: in a run of
    [smartTranslate original target] from [w], the second [try] is
    reached in the world [w0] after the events [t0]. *)
Definition reaches_pooled (original target : jsstring) (w w0 : world)
    (t0 : list event) : Prop :=
  (deepl_eligible target = false /\ w0 = w /\ t0 = [])
  \/ (deepl_eligible target = true
      /\ exists e t1,
           translateDeepL (preProcessText original) target w
           = (Thrown e, w0, t1)
           /\ t0 = t1 ++ [Warn (WarnDeepL e)]).

(** [reaches_last_resort original target w w0 t0]: likewise for the third
    [try]. *)
Definition reaches_last_resort (original target : jsstring) (w w0 : world)
    (t0 : list event) : Prop :=
  exists wp tp e t1,
    reaches_pooled original target w wp tp
    /\ translateLibre (preProcessText original) (targetBase_of target) wp
       = (Thrown e, w0, t1)
    /\ t0 = tp ++ t1 ++ [Warn (WarnLibre e)].

(** Every tier that is tried fails. *)
Definition all_tiers_fail (original target : jsstring) (w : world) : Prop :=
  exists w0 t0,
    reaches_last_resort original target w w0 t0
    /\ thrown (result_of (translateGooglePublic (preProcessText original)
                            (targetBase_of target) w0)) = true.

(** *** Providers that keep to their documented response shape *)

(** A translated-text field is a string whenever it is truthy. *)
Definition text_field (o : option value) : Prop :=
  forall v, o = Some v -> truthy v = true -> is_string v = true.

(** Every JSON body the network serves has such fields. *)
Definition network_serves_text : Prop :=
  forall r w res w1 data,
    net r w = (inr res, w1) -> res_json res = inr data ->
    text_field (deepl_field data) /\ text_field (libre_field data).

End Observations.

(* ================================================================== *)
(** ** Vocabulary of the Last-Resort extraction *)

Section Extraction.

Context {RT : Runtime}.

(** The first element of a segment ([seg?.[0]]). *)
Definition first_of (seg : value) : option value := index0 (Some seg).

(** The elements that [filter(Boolean)] keeps. *)
Fixpoint surviving (heads : list (option value)) : list value :=
  match heads with
  | Some v :: rest => if truthy v then v :: surviving rest else surviving rest
  | None :: rest => surviving rest
  | [] => []
  end.

(** The non-empty strings among the elements, in order. *)
Fixpoint kept_strings (heads : list (option value)) : list jsstring :=
  match heads with
  | Some (JStr (c :: s)) :: rest => (c :: s) :: kept_strings rest
  | _ :: rest => kept_strings rest
  | [] => []
  end.

(** The provider's documented shape: the first element of a segment is
    text, or is empty or missing; that is, it is a string whenever it is
    truthy. *)
Definition text_or_missing (head : option value) : Prop :=
  forall v, head = Some v -> truthy v = true -> is_string v = true.

End Extraction.

(* ================================================================== *)
(** ** The rest of the program: buttons, custom ids, channels *)

(** *** [chunk] *)

Section Chunk.

Context {A : Type}.

(** [arr.slice(i, j)] for [0 <= i <= j]. *)
Definition slice (i j : nat) (arr : list A) : list A :=
  firstn (j - i) (skipn i arr).

(** The [for (let i = 0; i < arr.length; i += size)] loop, entered with
    the index [i] and the chunks [out] pushed so far.  The loop need not
    end ([size] may be 0), so it runs on fuel: [None] is a loop still
    running when the fuel is spent. *)
Fixpoint chunk_loop (fuel : nat) (arr : list A) (size i : nat)
    (out : list (list A)) : option (list (list A)) :=
  match fuel with
  | O => None
  | S fuel' =>
      if (i <? length arr)%nat then
        chunk_loop fuel' arr size (i + size)
          (out ++ [slice i (i + size) arr])
      else Some out
  end.

Definition chunk (fuel : nat) (arr : list A) (size : nat)
  : option (list (list A)) :=
  chunk_loop fuel arr size 0 [].

(** The chunks of [l], by cutting [size] elements off at a time. *)
Fixpoint pieces (n : nat) (size : nat) (l : list A) : list (list A) :=
  match n, l with
  | S n', _ :: _ => firstn size l :: pieces n' size (skipn size l)
  | _, _ => []
  end.

End Chunk.

(** *** [FLAG_TO_LANG] and [buildFlagRows] *)

(** The own properties of the object, in insertion order.  The keys are
    flag emoji: two regional-indicator code points, four code units. *)
Definition FLAG_TO_LANG : list (jsstring * jsstring) :=
  [ ([0xd83c; 0xddfa; 0xd83c; 0xddf8], lit "EN-US");
    ([0xd83c; 0xddea; 0xd83c; 0xddf8], lit "ES");
    ([0xd83c; 0xddeb; 0xd83c; 0xddf7], lit "FR");
    ([0xd83c; 0xddf5; 0xd83c; 0xddf9], lit "PT-PT");
    ([0xd83c; 0xddee; 0xd83c; 0xddf3], lit "IN");
    ([0xd83c; 0xddf0; 0xd83c; 0xddf7], lit "KR");
    ([0xd83c; 0xddef; 0xd83c; 0xddf5], lit "JP");
    ([0xd83c; 0xddf5; 0xd83c; 0xddf1], lit "PL");
    ([0xd83c; 0xddf9; 0xd83c; 0xddfc], lit "ZH-TW") ].

Inductive ButtonStyle : Type := Primary | Secondary | Success | Danger | Link.

(** What the [ButtonBuilder] setters are given. *)
Record button : Type := {
  customId : jsstring;
  label : jsstring;
  style : ButtonStyle
}.

(** [`tr:${lang}:${messageId}`] *)
Definition customId_of (lang messageId : jsstring) : jsstring :=
  lit "tr:" ++ lang ++ 58 :: messageId.

(** The button of a pair of the table. *)
Definition button_of (messageId : jsstring) (p : jsstring * jsstring) : button :=
  {| customId := customId_of (snd p) messageId;
     label := fst p;
     style := Secondary |}.

Section FlagRows.

(** The table the function reads; the program's own is [FLAG_TO_LANG]. *)
Variable table : list (jsstring * jsstring).

(** [Object.entries(table).filter(...)]: keys and values are strings, so
    the filter keeps the pairs with a non-empty key and value. *)
Definition flag_pairs : list (jsstring * jsstring) :=
  filter (fun p => str_truthy (fst p) && str_truthy (snd p)) table.

(** The inner loop: one button for each flag of the group whose language
    is truthy. *)
Definition row_of (messageId : jsstring) (group : list jsstring) : list button :=
  flat_map
    (fun flag =>
       match Map_get flag table with
       | Some lang =>
           if str_truthy lang then
             [{| customId := customId_of lang messageId;
                 label := flag;
                 style := Secondary |}]
           else []
       | None => []
       end) group.

(** The outer loop over the groups, entered with the rows pushed so
    far; it stops as soon as there are two rows. *)
Fixpoint rows_loop (messageId : jsstring) (groups : list (list jsstring))
    (rows : list (list button)) : list (list button) :=
  match groups with
  | [] => rows
  | group :: groups' =>
      let row := row_of messageId group in
      let rows' :=
        if ((1 <=? length row) && (length row <=? 5))%nat
        then rows ++ [row] else rows in
      if (length rows' =? 2)%nat then rows'
      else rows_loop messageId groups' rows'
  end.

(** [None] only if [chunk] were still running. *)
Definition buildFlagRows_from (messageId : jsstring)
  : option (list (list button)) :=
  let flags := map fst flag_pairs in
  match flags with
  | [] => Some []
  | _ :: _ =>
      match chunk (S (length flags)) flags 5 with
      | Some groups => Some (rows_loop messageId groups [])
      | None => None
      end
  end.

End FlagRows.

Definition buildFlagRows (messageId : jsstring) : option (list (list button)) :=
  buildFlagRows_from FLAG_TO_LANG messageId.

(** *** The custom id read back (the [InteractionCreate] handler) *)

(** [if (!custom.startsWith('tr:')) return;
     const [, lang, msgId] = custom.split(':');]
    [None] is the early return; a component that the destructuring
    leaves [undefined] is [None]. *)
Definition parse_customId (custom : jsstring)
  : option (option jsstring * option jsstring) :=
  if starts_with (lit "tr:") custom then
    let parts := split 58 custom in
    Some (nth_error parts 1, nth_error parts 2)
  else None.

(** *** [CHANNEL_ALLOWLIST] and [isAllowedChannel] *)

(** [ALLOWED_CHANNELS] of [process.env]; [None] is an unset variable. *)
Class Channels : Type := {
  ALLOWED_CHANNELS_env : option jsstring
}.

Section Allowlist.

Context {CH : Channels}.

Definition ALLOWED_CHANNELS : jsstring :=
  match ALLOWED_CHANNELS_env with
  | Some s => s
  | None => []
  end.

(** The elements of the [Set], in insertion order (duplicates kept:
    only emptiness and membership are ever asked). *)
Definition CHANNEL_ALLOWLIST : list jsstring :=
  filter str_truthy (map trim (split 44 ALLOWED_CHANNELS)).

(** [channel] is the [id] of the channel, [None] when the channel is
    [null] or [undefined], so that [channel?.id] is [undefined]. *)
Definition isAllowedChannel (channel : option jsstring) : bool :=
  match CHANNEL_ALLOWLIST with
  | [] => true
  | _ :: _ =>
      match channel with
      | Some id => Set_has CHANNEL_ALLOWLIST id
      | None => false
      end
  end.

End Allowlist.

(** *** Words for the string facts *)

(** No whitespace at the start, at the end. *)
Definition starts_clean (s : jsstring) : Prop :=
  match s with
  | c :: _ => is_white_space c = false
  | [] => True
  end.

Definition ends_clean (s : jsstring) : Prop := starts_clean (rev s).

Definition all_white (s : jsstring) : Prop :=
  Forall (fun c => is_white_space c = true) s.

(** *** What a run asks of the network *)

Section Requests.

Context {RT : Runtime}.

(** The requests handed to [fetch] during a run, in order. *)
Fixpoint requests (t : list event) : list request :=
  match t with
  | Fetch r :: t' => r :: requests t'
  | _ :: t' => requests t'
  | [] => []
  end.

(** [translated || '*Translation failed.*'], the description of the
    reply. *)
Definition description (translated : value) : value :=
  or_else (Some translated) (JStr (lit "*Translation failed.*")).

(** A code unit that [encodeURIComponent] may put out. *)
Definition uri_safe (c : N) : bool := uri_unreserved c || (c =? 37).

Definition is_surrogate (c : N) : bool :=
  is_high_surrogate c || is_low_surrogate c.

End Requests.

Section CallDiscipline.

Context {RT : Runtime} {PR : Process}.

(** A provider call as [smartTranslate original target] may make it: the
    text is the normalized original; the Primary gets the target as
    given, the other functions the base code; an endpoint is one of the
    pool. *)
Definition call_of (original target : jsstring) (c : call) : Prop :=
  match c with
  | CallDeepL text tgt =>
      text = preProcessText original /\ tgt = target
  | CallLibre text to | CallGoogle text to =>
      text = preProcessText original /\ to = targetBase_of target
  | CallLibreAt baseUrl text to =>
      In baseUrl libre_list
      /\ text = preProcessText original /\ to = targetBase_of target
  end.

(** The request carries no [Authorization] header. *)
Definition unauthenticated (r : request) : Prop :=
  ~ In (lit "Authorization") (map fst (req_headers r)).

End CallDiscipline.
(* ================================================================== *)
(** ** A concrete runtime, configuration and network

    Used to run the program on concrete inputs: JSON numbers restricted
    to the naturals, the identity for the non-ASCII case mappings (exact
    on caseless scripts such as kana), and a network that answers the
    successive requests from a script. *)

Module Concrete.

Definition runtime : Runtime :=
  {| number := N;
     number_truthy := fun n => negb (n =? 0);
     number_toString := fun n => lit (DecimalString.NilEmpty.string_of_uint (N.to_uint n));
     unicode_lower := fun s => s;
     unicode_upper := fun s => s |}.

Definition with_key : Process :=
  {| DEEPL_KEY := Some (lit "secret"); LIBRETRANSLATE_URLS_env := None |}.

Definition without_key : Process :=
  {| DEEPL_KEY := None; LIBRETRANSLATE_URLS_env := None |}.

Definition pool_of (urls : string) : Process :=
  {| DEEPL_KEY := None; LIBRETRANSLATE_URLS_env := Some (lit urls) |}.

Definition down_error : exn := RuntimeError (lit "request failed").

Definition down : exn + @response runtime := inl down_error.

Definition scripted : @Network runtime :=
  {| world := list (exn + @response runtime);
     net := fun _ w =>
              match w with
              | answer :: w' => (answer, w')
              | [] => (down, [])
              end |}.

(** A response with a JSON body served as [application/json]. *)
Definition json_res (status : N) (data : @value runtime) : @response runtime :=
  {| res_status := status;
     res_content_type := Some (lit "application/json");
     res_text := Some [];
     res_json := inr data |}.

Definition json_response (status : N) (data : @value runtime)
  : exn + @response runtime :=
  inr (json_res status data).

(** The same body served as [text/html]. *)
Definition html_res (status : N) (data : @value runtime) : @response runtime :=
  {| res_status := status;
     res_content_type := Some (lit "text/html");
     res_text := Some [];
     res_json := inr data |}.

Definition html_response (status : N) (data : @value runtime)
  : exn + @response runtime :=
  inr (html_res status data).

(** A network that gives the same answer to every request. *)
Definition steady (answer : exn + @response runtime) : @Network runtime :=
  {| world := unit; net := fun _ w => (answer, w) |}.

(** Bodies in the providers' documented shapes. *)
Definition deepl_body (text : jsstring) : @value runtime :=
  JObj [(lit "translations", JArr [JObj [(lit "text", JStr text)]])].

Definition libre_body (text : jsstring) : @value runtime :=
  JObj [(lit "translatedText", JStr text)].

Definition google_body (segments : list jsstring) : @value runtime :=
  JArr [JArr (map (fun s => JArr [JStr s; JNull]) segments); JNull;
        JStr (lit "en")].

(** Segments of a Last-Resort answer: two translated chunks, a missing
    segment and an empty chunk. *)
Definition bom_dia : list (@value runtime) :=
  [JArr [JStr (lit "bom"); JStr (lit "good")]; JNull; JArr [JStr []];
   JArr [JStr (lit "dia"); JNull]].

(** The text [arigatou] in hiragana. *)
Definition arigatou : jsstring := [0x3042; 0x308a; 0x304c; 0x3068; 0x3046].

(** [smartTranslate] and [translateLibre] on the scripted network. *)
Definition run_smart (PR : Process) (w : list (exn + @response runtime))
    (original : jsstring) (target : string) :=
  smartTranslate (RT := runtime) (PR := PR) (NW := scripted)
    original (lit target) w.

Definition run_libre (PR : Process) (w : list (exn + @response runtime))
    (text : jsstring) (to : string) :=
  translateLibre (RT := runtime) (PR := PR) (NW := scripted) text (lit to) w.

Definition run_google (w : list (exn + @response runtime))
    (text : jsstring) (to : string) :=
  translateGooglePublic (RT := runtime) (NW := scripted) text (lit to) w.

End Concrete.


(** Settings of [ALLOWED_CHANNELS] and two more answers. *)
Module ConcreteMore.

Definition channels_of (setting : string) : Channels :=
  {| ALLOWED_CHANNELS_env := Some (lit setting) |}.

Definition no_setting : Channels := {| ALLOWED_CHANNELS_env := None |}.

(** A 503 with a page of 200 code units. *)
Definition page_503 : @response Concrete.runtime :=
  {| res_status := 503;
     res_content_type := Some (lit "text/html");
     res_text := Some (repeat 60 200);
     res_json := inl Concrete.down_error |}.

(** A translation served as [Application/JSON; charset=utf-8]. *)
Definition json_mixed_case : @response Concrete.runtime :=
  {| res_status := 200;
     res_content_type := Some (lit "Application/JSON; charset=utf-8");
     res_text := Some [];
     res_json := inr (Concrete.libre_body (lit "ola")) |}.

End ConcreteMore.
(* ================================================================== *)
(** ** Facts about strings and the phrase table *)

Lemma str_eqb_eq (a b : jsstring) : str_eqb a b = true <-> a = b.
Proof.
  revert b; induction a as [|x a IH]; intros [|y b]; simpl;
    try (split; [discriminate | intro H; discriminate H]).
  - split; reflexivity.
  - rewrite andb_true_iff, N.eqb_eq, IH.
    split; [intros [-> ->]; reflexivity | intro H; injection H; auto].
Qed.

Lemma str_eqb_refl (a : jsstring) : str_eqb a a = true.
Proof. apply str_eqb_eq; reflexivity. Qed.

Lemma str_truthy_nonempty (s : jsstring) : str_truthy s = true <-> s <> [].
Proof. destruct s; simpl; split; congruence. Qed.

Lemma Map_get_In k m v : Map_get k m = Some v -> In (k, v) m.
Proof.
  induction m as [|[k' v'] m IH]; simpl; [discriminate|].
  destruct (str_eqb k k') eqn:E.
  - apply str_eqb_eq in E; subst k'.
    intro H; injection H as ->; left; reflexivity.
  - intro H; right; exact (IH H).
Qed.

Lemma Map_get_None k m : Map_get k m = None -> ~ In k (map fst m).
Proof.
  induction m as [|[k' v'] m IH]; simpl; [tauto|].
  destruct (str_eqb k k') eqn:E; [discriminate|].
  intros H [K | K]; [| exact (IH H K)].
  subst k'; rewrite str_eqb_refl in E; discriminate.
Qed.

(** With distinct keys, a pair of the table is what [get] finds. *)
Lemma Map_get_NoDup k v m :
  NoDup (map fst m) -> In (k, v) m -> Map_get k m = Some v.
Proof.
  induction m as [|[k' v'] m IH]; simpl; [tauto|].
  intros ND [H | H]; inversion ND as [|? ? Hnot ND']; subst.
  - injection H as -> ->; rewrite str_eqb_refl; reflexivity.
  - destruct (str_eqb k k') eqn:E.
    + apply str_eqb_eq in E; subst k'.
      exfalso; apply Hnot; change k with (fst (k, v)); apply in_map; exact H.
    + exact (IH ND' H).
Qed.

Lemma dict_keys_distinct : NoDup (map fst dict).
Proof.
  unfold dict; simpl.
  repeat (constructor; [simpl; intuition discriminate|]).
  constructor.
Qed.

Lemma dict_values_truthy k v : In (k, v) dict -> str_truthy v = true.
Proof.
  unfold dict; simpl In; intro H.
  repeat (destruct H as [H | H]; [injection H as <- <-; reflexivity|]).
  destruct H.
Qed.


(* ================================================================== *)
(** ** One run of each provider function *)

Section Runs.

Context {RT : Runtime} {PR : Process} {NW : Network}.
Local Open Scope js_scope.

Lemma translateDeepL_run text target w :
  translateDeepL text target w
  = (deepl_answer text (fst (net (deepl_request text target) w)),
     snd (net (deepl_request text target) w),
     [Enter (CallDeepL text target); Fetch (deepl_request text target)]).
Proof.
  unfold translateDeepL, bind, enter, emit, fetch, json_of, ret, throw.
  destruct (net (deepl_request text target) w) as [[e|res] w1]; simpl;
    [reflexivity|].
  destruct (res_ok res); simpl; [|reflexivity].
  destruct (res_json res); reflexivity.
Qed.

Lemma translateLibreAt_run baseUrl text to w :
  translateLibreAt baseUrl text to w
  = (libre_answer baseUrl text (fst (net (libre_request baseUrl text to) w)),
     snd (net (libre_request baseUrl text to) w),
     [Enter (CallLibreAt baseUrl text to);
      Fetch (libre_request baseUrl text to)]).
Proof.
  unfold translateLibreAt, bind, try_catch, enter, emit, fetch, json_of, ret,
    throw.
  destruct (net (libre_request baseUrl text to) w) as [[e|res] w1]; simpl;
    [reflexivity|].
  destruct (res_ok res); simpl; [|reflexivity].
  destruct (includes _ _); simpl; [|reflexivity].
  destruct (res_json res); reflexivity.
Qed.

Lemma translateGooglePublic_run text to w :
  translateGooglePublic text to w
  = match google_url text to with
    | Some url =>
        (google_answer text (fst (net (google_request url) w)),
         snd (net (google_request url) w),
         [Enter (CallGoogle text to); Fetch (google_request url)])
    | None => (Thrown URIError_malformed, w, [Enter (CallGoogle text to)])
    end.
Proof.
  unfold translateGooglePublic, bind, enter, emit, fetch, json_of, ret, throw.
  destruct (google_url text to) as [url|]; [|reflexivity].
  destruct (net (google_request url) w) as [[e|res] w1]; simpl;
    [reflexivity|].
  destruct (res_ok res); simpl; [|reflexivity].
  destruct (res_json res) as [e|json]; simpl; [reflexivity|].
  destruct (google_chunks json) as [chunks|]; [|reflexivity].
  destruct (join_values (lit " ") chunks); reflexivity.
Qed.

End Runs.

(* ================================================================== *)
(** ** The pool loop *)

Section Pool.

Context {RT : Runtime} {PR : Process} {NW : Network}.
Local Open Scope js_scope.

Lemma last_cons_default (e : exn) es d : last (e :: es) d = last es e.
Proof.
  revert e d; induction es as [|e' es IH]; intros e d; [reflexivity|].
  change (last (e :: e' :: es) d) with (last (e' :: es) d).
  rewrite (IH e' d), (IH e' e). reflexivity.
Qed.

Lemma libre_list_nonempty : libre_list <> [].
Proof.
  unfold libre_list; destruct LIBRE_ENDPOINTS; discriminate.
Qed.

Lemma translateLibreAt_trace baseUrl text to w :
  trace_of (translateLibreAt baseUrl text to w)
  = [Enter (CallLibreAt baseUrl text to); Fetch (libre_request baseUrl text to)].
Proof. rewrite translateLibreAt_run; reflexivity. Qed.

Lemma attempted_app t1 t2 : attempted (t1 ++ t2) = attempted t1 ++ attempted t2.
Proof.
  induction t1 as [|[[ | |b ? ?| ]| | ] t1 IH]; simpl; rewrite ?IH; reflexivity.
Qed.

Lemma entered_app t1 t2 : entered (t1 ++ t2) = entered t1 ++ entered t2.
Proof.
  induction t1 as [|[c| | ] t1 IH]; simpl; rewrite ?IH; reflexivity.
Qed.

Lemma all_failed_attempted text to bs w es w' t :
  all_failed text to bs w es w' t ->
  attempted t = bs /\ length es = length bs.
Proof.
  induction 1 as [|b bs w e w1 t1 es w2 t2 H _ [IH1 IH2]];
    [split; reflexivity|].
  pose proof (translateLibreAt_trace b text to w) as T.
  rewrite H in T; simpl in T; subst t1.
  simpl; rewrite IH1, IH2; split; reflexivity.
Qed.

(** The loop, entered with [lastErr] in the world [w]: it returns what the
    first endpoint that does not throw returns, after the endpoints before
    it have all thrown; or all endpoints have thrown, and it throws the
    error of the last of them ([lastErr] when the list is empty). *)
Lemma translateLibre_loop_spec text to list lastErr w :
  match translateLibre_loop list text to lastErr w with
  | (Returned v, w', t) =>
      exists bs b rest es w1 t1 t2,
        list = bs ++ b :: rest
        /\ all_failed text to bs w es w1 t1
        /\ translateLibreAt b text to w1 = (Returned v, w', t2)
        /\ t = t1 ++ t2
  | (Thrown e, w', t) =>
      exists es,
        all_failed text to list w es w' t
        /\ e = last es (match lastErr with
                        | Some e0 => e0
                        | None => NoLibreEndpointError
                        end)
  end.
Proof.
  revert lastErr w; induction list as [|b rest IH]; intros lastErr w.
  - simpl. exists []; split; [constructor | reflexivity].
  - simpl. unfold try_catch.
    destruct (translateLibreAt b text to w) as [[[v|e] w1] t1] eqn:E.
    + exists [], b, rest, [], w, [], t1.
      repeat split; [constructor | exact E].
    + unfold bind, warn, emit.
      specialize (IH (Some e) w1).
      destruct (translateLibre_loop rest text to (Some e) w1)
        as [[[v|e'] w2] t2].
      * destruct IH as (bs & b' & rest' & es & w3 & t3 & t4 & -> & AF & R & ->).
        exists (b :: bs), b', rest', (e :: es), w3,
          (t1 ++ Warn (WarnLibreAt b e) :: t3), t4.
        repeat split.
        -- econstructor; eassumption.
        -- exact R.
        -- simpl; rewrite <- app_assoc; reflexivity.
      * destruct IH as (es & AF & ->).
        exists (e :: es); split.
        -- simpl. econstructor; eassumption.
        -- symmetry; apply last_cons_default.
Qed.

Lemma translateLibre_unfold text to w :
  translateLibre text to w
  = after [Enter (CallLibre text to)]
      (translateLibre_loop libre_list text to None w).
Proof.
  unfold translateLibre, bind, enter, emit, after, result_of, world_of, trace_of.
  destruct (translateLibre_loop libre_list text to None w) as [[r w1] t1];
    reflexivity.
Qed.

End Pool.

(* ================================================================== *)
(** ** The orchestrator, one [try] at a time *)

Section Orchestrator.

Context {RT : Runtime} {PR : Process} {NW : Network}.
Local Open Scope js_scope.

Lemma after_nil {A} (x : outcome A * world * list event) : after [] x = x.
Proof. destruct x as [[r w] t]; reflexivity. Qed.

Lemma after_after {A} t t' (x : outcome A * world * list event) :
  after t (after t' x) = after (t ++ t') x.
Proof.
  destruct x as [[r w] t'']; unfold after; simpl.
  rewrite app_assoc; reflexivity.
Qed.

Lemma google_or_original_unfold text base w :
  google_or_original text base w
  = match translateGooglePublic text base w with
    | (Returned v, w1, t1) => (Returned v, w1, t1)
    | (Thrown e, w1, t1) => (Returned (JStr text), w1, t1 ++ [Warn (WarnGoogle e)])
    end.
Proof.
  unfold google_or_original, try_catch, bind, warn, emit, ret.
  destruct (translateGooglePublic text base w) as [[[v|e] w1] t1]; reflexivity.
Qed.

Lemma libre_then_google_unfold text base w :
  libre_then_google text base w
  = match translateLibre text base w with
    | (Returned v, w1, t1) => (Returned v, w1, t1)
    | (Thrown e, w1, t1) =>
        after (t1 ++ [Warn (WarnLibre e)]) (google_or_original text base w1)
    end.
Proof.
  unfold libre_then_google, try_catch at 1, bind, warn, emit, after.
  destruct (translateLibre text base w) as [[[v|e] w1] t1]; [reflexivity|].
  destruct (google_or_original text base w1) as [[r w2] t2]; simpl.
  rewrite <- app_assoc; reflexivity.
Qed.

Lemma smartTranslate_unfold original target w :
  smartTranslate original target w
  = if deepl_eligible target then
      match translateDeepL (preProcessText original) target w with
      | (Returned v, w1, t1) => (Returned v, w1, t1)
      | (Thrown e, w1, t1) =>
          after (t1 ++ [Warn (WarnDeepL e)])
            (libre_then_google (preProcessText original)
               (targetBase_of target) w1)
      end
    else libre_then_google (preProcessText original) (targetBase_of target) w.
Proof.
  unfold smartTranslate.
  destruct (deepl_eligible target); [|reflexivity].
  unfold try_catch, bind, warn, emit, after.
  destruct (translateDeepL _ target w) as [[[v|e] w1] t1]; [reflexivity|].
  destruct (libre_then_google _ _ w1) as [[r w2] t2]; simpl.
  rewrite <- app_assoc; reflexivity.
Qed.

(** When the Primary returns, so does the orchestrator, with nothing
    more done. *)
Lemma smartTranslate_primary_returned original target w v w1 t1 :
  deepl_eligible target = true ->
  translateDeepL (preProcessText original) target w = (Returned v, w1, t1) ->
  smartTranslate original target w = (Returned v, w1, t1).
Proof.
  intros El H; rewrite smartTranslate_unfold, El, H; reflexivity.
Qed.

Lemma smartTranslate_from_pooled original target w w0 t0 :
  reaches_pooled original target w w0 t0 ->
  smartTranslate original target w
  = after t0 (libre_then_google (preProcessText original)
                (targetBase_of target) w0).
Proof.
  intros [(El & -> & ->) | (El & e & t1 & H & ->)];
    rewrite smartTranslate_unfold, El.
  - rewrite after_nil; reflexivity.
  - rewrite H; reflexivity.
Qed.

(** When the Pooled adapter returns, so does the orchestrator, with
    nothing more done. *)
Lemma smartTranslate_pooled_returned original target w w0 t0 v w1 t1 :
  reaches_pooled original target w w0 t0 ->
  translateLibre (preProcessText original) (targetBase_of target) w0
  = (Returned v, w1, t1) ->
  smartTranslate original target w = (Returned v, w1, t0 ++ t1).
Proof.
  intros R H.
  rewrite (smartTranslate_from_pooled _ _ _ _ _ R), libre_then_google_unfold, H.
  reflexivity.
Qed.

Lemma smartTranslate_from_last_resort original target w w0 t0 :
  reaches_last_resort original target w w0 t0 ->
  smartTranslate original target w
  = after t0 (google_or_original (preProcessText original)
                (targetBase_of target) w0).
Proof.
  intros (wp & tp & e & t1 & R & H & ->).
  rewrite (smartTranslate_from_pooled _ _ _ _ _ R), libre_then_google_unfold, H.
  rewrite after_after, app_assoc; reflexivity.
Qed.

(** The second [try] is reached exactly when the Primary is skipped or
    throws. *)
Lemma reaches_pooled_or_primary_returns original target w :
  (exists w0 t0, reaches_pooled original target w w0 t0)
  \/ (deepl_eligible target = true
      /\ exists v w1 t1,
           translateDeepL (preProcessText original) target w
           = (Returned v, w1, t1)).
Proof.
  destruct (deepl_eligible target) eqn:El.
  - destruct (translateDeepL (preProcessText original) target w)
      as [[[v|e] w1] t1] eqn:H.
    + right; split; [reflexivity|]; exists v, w1, t1; reflexivity.
    + left; exists w1, (t1 ++ [Warn (WarnDeepL e)]); right.
      split; [exact El|]; exists e, t1; split; [exact H | reflexivity].
  - left; exists w, []; left; repeat split; exact El.
Qed.

End Orchestrator.

(* ================================================================== *)
(** ** What a run enters, and where a run of the pool stops *)

Section Traces.

Context {RT : Runtime} {PR : Process} {NW : Network}.

Lemma all_failed_entered text to bs w es w' t :
  all_failed text to bs w es w' t ->
  entered t = map (fun b => CallLibreAt b text to) bs.
Proof.
  induction 1 as [|b bs w e w1 t1 es w2 t2 H _ IH]; [reflexivity|].
  pose proof (translateLibreAt_trace b text to w) as T.
  rewrite H in T; simpl in T; subst t1.
  simpl; rewrite IH; reflexivity.
Qed.

(** The loop stops at the first endpoint that returns. *)
Lemma translateLibre_loop_first_return text to bs b rest lastErr w es w1 t1 v w2 t2 :
  all_failed text to bs w es w1 t1 ->
  translateLibreAt b text to w1 = (Returned v, w2, t2) ->
  translateLibre_loop (bs ++ b :: rest) text to lastErr w
  = (Returned v, w2, t1 ++ t2).
Proof.
  intros AF R; revert lastErr.
  induction AF as [|b0 bs w e w1 t1 es w3 t3 H _ IH]; intro lastErr; simpl.
  - unfold try_catch; rewrite R; reflexivity.
  - unfold try_catch; rewrite H.
    unfold bind, warn, emit.
    rewrite (IH R (Some e)); simpl.
    rewrite <- app_assoc; reflexivity.
Qed.

Lemma translateLibre_first_return text to bs b rest w es w1 t1 v w2 t2 :
  libre_list = bs ++ b :: rest ->
  all_failed text to bs w es w1 t1 ->
  translateLibreAt b text to w1 = (Returned v, w2, t2) ->
  translateLibre text to w
  = (Returned v, w2, Enter (CallLibre text to) :: t1 ++ t2).
Proof.
  intros L AF R.
  rewrite translateLibre_unfold, L.
  rewrite (translateLibre_loop_first_return _ _ _ _ _ _ _ _ _ _ _ _ _ AF R).
  reflexivity.
Qed.

Lemma translateLibre_trace_head text to w :
  exists t, trace_of (translateLibre text to w) = Enter (CallLibre text to) :: t.
Proof.
  rewrite translateLibre_unfold.
  eexists; reflexivity.
Qed.

Lemma libre_then_google_trace_head text base w :
  exists t,
    trace_of (libre_then_google text base w) = Enter (CallLibre text base) :: t.
Proof.
  rewrite libre_then_google_unfold.
  destruct (translateLibre_trace_head text base w) as [t Ht].
  destruct (translateLibre text base w) as [[[v|e] w1] t1];
    unfold trace_of in Ht; simpl in Ht; subst t1.
  - eexists; reflexivity.
  - eexists; reflexivity.
Qed.

Lemma translateLibre_entered text to w :
  exists k,
    entered (trace_of (translateLibre text to w))
    = CallLibre text to
      :: map (fun b => CallLibreAt b text to) (firstn k libre_list).
Proof.
  rewrite translateLibre_unfold.
  pose proof (translateLibre_loop_spec text to libre_list None w) as S.
  destruct (translateLibre_loop libre_list text to None w) as [[[v|e] w1] t1];
    unfold after, trace_of; simpl.
  - destruct S as (bs & b & rest & es & w2 & t2 & t3 & L & AF & R & ->).
    exists (length (bs ++ [b])).
    replace libre_list with ((bs ++ [b]) ++ rest)
      by (rewrite L, <- app_assoc; reflexivity).
    rewrite firstn_app, firstn_all, Nat.sub_diag, firstn_O, app_nil_r.
    rewrite entered_app, (all_failed_entered _ _ _ _ _ _ _ AF), map_app.
    pose proof (translateLibreAt_trace b text to w2) as T.
    rewrite R in T; simpl in T; subst t3. reflexivity.
  - destruct S as (es & AF & _).
    exists (length libre_list).
    rewrite firstn_all, (all_failed_entered _ _ _ _ _ _ _ AF). reflexivity.
Qed.

Lemma translateGooglePublic_entered text to w :
  entered (trace_of (translateGooglePublic text to w)) = [CallGoogle text to].
Proof.
  rewrite translateGooglePublic_run.
  destruct (google_url text to); reflexivity.
Qed.

(** After the Primary, only the Pooled and the Last-Resort functions are
    entered. *)
Lemma libre_then_google_entered text base w :
  Forall (fun c => is_primary c = false)
    (entered (trace_of (libre_then_google text base w))).
Proof.
  rewrite libre_then_google_unfold.
  destruct (translateLibre_entered text base w) as [k Hk].
  assert (P : Forall (fun c => is_primary c = false)
                (CallLibre text base
                 :: map (fun b => CallLibreAt b text base)
                      (firstn k libre_list))).
  { constructor; [reflexivity|].
    apply Forall_forall; intros c Hc.
    apply in_map_iff in Hc; destruct Hc as (b & <- & _); reflexivity. }
  rewrite <- Hk in P.
  destruct (translateLibre text base w) as [[[v|e] w1] t1];
    unfold trace_of in P; simpl in P; [exact P|].
  unfold after, trace_of; simpl.
  rewrite !entered_app; simpl; rewrite app_nil_r.
  apply Forall_app; split; [exact P|].
  rewrite google_or_original_unfold.
  pose proof (translateGooglePublic_entered text base w1) as G.
  destruct (translateGooglePublic text base w1) as [[[v|e'] w2] t2];
    unfold trace_of in G; simpl in G; simpl.
  - rewrite G; constructor; [reflexivity | constructor].
  - rewrite entered_app, G; simpl.
    constructor; [reflexivity | constructor].
Qed.

End Traces.

(* ================================================================== *)
(** ** The normalizer *)

Section Normalizer.

Context {RT : Runtime}.

Lemma preProcessText_hit text v :
  In (lookup_key text, v) dict -> preProcessText text = v.
Proof.
  intro H; unfold preProcessText; fold (lookup_key text).
  rewrite (Map_get_NoDup _ _ _ dict_keys_distinct H).
  rewrite (dict_values_truthy _ _ H); reflexivity.
Qed.

Lemma preProcessText_miss text :
  ~ In (lookup_key text) (map fst dict) -> preProcessText text = text.
Proof.
  intro H; unfold preProcessText; fold (lookup_key text).
  destruct (Map_get (lookup_key text) dict) as [v|] eqn:E; [|reflexivity].
  exfalso; apply H.
  change (lookup_key text) with (fst (lookup_key text, v)).
  apply in_map, Map_get_In, E.
Qed.

(** No replacement value is looked up under a key of the table. *)
Lemma dict_values_are_not_keys k v :
  In (k, v) dict -> Map_get (lookup_key v) dict = None.
Proof.
  unfold dict at 1; simpl In; intro H.
  repeat (destruct H as [H | H]; [injection H as <- <-; reflexivity|]).
  destruct H.
Qed.

(** C7. The normalizer is a total function of its input string.  Its
    lookup key is the input trimmed, then lowercased.  When the key is in
    the phrase table the result is the replacement the table pairs it
    with, verbatim; when it is not, the result is the input itself,
    untrimmed and in its original case. *)
Theorem preProcessText_contract (text : jsstring) :
  lookup_key text = toLowerCase (trim text)
  /\ (forall v, In (lookup_key text, v) dict -> preProcessText text = v)
  /\ (~ In (lookup_key text) (map fst dict) -> preProcessText text = text)
  /\ (In (lookup_key text, preProcessText text) dict
      \/ (~ In (lookup_key text) (map fst dict) /\ preProcessText text = text)).
Proof.
  split; [reflexivity|].
  split; [intro v; apply preProcessText_hit|].
  split; [apply preProcessText_miss|].
  destruct (Map_get (lookup_key text) dict) as [v|] eqn:E.
  - left. pose proof (Map_get_In _ _ _ E) as H.
    rewrite (preProcessText_hit _ _ H); exact H.
  - right. pose proof (Map_get_None _ _ E) as H.
    split; [exact H | apply preProcessText_miss, H].
Qed.

(** C9. Normalizing twice is normalizing once.  A replacement value,
    trimmed and lowercased, is never a key of the table, so the second
    pass leaves the output of the first unchanged. *)
Theorem preProcessText_idempotent :
  (forall x, preProcessText (preProcessText x) = preProcessText x)
  /\ (forall k v, In (k, v) dict -> ~ In (lookup_key v) (map fst dict)).
Proof.
  assert (K : forall k v, In (k, v) dict -> ~ In (lookup_key v) (map fst dict)).
  { intros k v H; apply Map_get_None, (dict_values_are_not_keys k), H. }
  split; [|exact K].
  intro x.
  destruct (Map_get (lookup_key x) dict) as [v|] eqn:E.
  - pose proof (Map_get_In _ _ _ E) as H.
    rewrite (preProcessText_hit _ _ H).
    apply preProcessText_miss, (K _ _ H).
  - pose proof (preProcessText_miss _ (Map_get_None _ _ E)) as H.
    rewrite H; exact H.
Qed.

End Normalizer.

(* ================================================================== *)
(** ** The orchestrator always returns *)

Section Availability.

Context {RT : Runtime} {PR : Process} {NW : Network}.

Lemma or_else_is_string o text :
  text_field o -> is_string (or_else o (JStr text)) = true.
Proof.
  intro T; destruct o as [v|]; simpl; [|reflexivity].
  destruct (truthy v) eqn:Tr; [|reflexivity].
  exact (T v eq_refl Tr).
Qed.

Lemma translateDeepL_returns_string text target w v :
  network_serves_text ->
  result_of (translateDeepL text target w) = Returned v -> is_string v = true.
Proof.
  intro T; rewrite translateDeepL_run; unfold result_of; simpl.
  destruct (net (deepl_request text target) w) as [[e|res] w1] eqn:N; simpl;
    [discriminate|].
  destruct (res_ok res); [|discriminate].
  destruct (res_json res) as [e|data] eqn:J; [discriminate|].
  intro H; injection H as <-.
  apply or_else_is_string, (T _ _ _ _ _ N J).
Qed.

Lemma translateLibreAt_returns_string baseUrl text to w v :
  network_serves_text ->
  result_of (translateLibreAt baseUrl text to w) = Returned v ->
  is_string v = true.
Proof.
  intro T; rewrite translateLibreAt_run; unfold result_of; simpl.
  destruct (net (libre_request baseUrl text to) w) as [[e|res] w1] eqn:N; simpl;
    [discriminate|].
  destruct (res_ok res); [|discriminate].
  destruct (includes _ _); [|discriminate].
  destruct (res_json res) as [e|data] eqn:J; [discriminate|].
  intro H; injection H as <-.
  apply or_else_is_string, (T _ _ _ _ _ N J).
Qed.

Lemma translateLibre_returns_string text to w v :
  network_serves_text ->
  result_of (translateLibre text to w) = Returned v -> is_string v = true.
Proof.
  intro T; rewrite translateLibre_unfold; unfold after, result_of at 1; simpl.
  pose proof (translateLibre_loop_spec text to libre_list None w) as S.
  destruct (translateLibre_loop libre_list text to None w) as [[[v'|e] w1] t1];
    simpl; [|discriminate].
  intro H; injection H as ->.
  destruct S as (bs & b & rest & es & w2 & t2 & t3 & _ & _ & R & _).
  apply (translateLibreAt_returns_string b text to w2 v T).
  rewrite R; reflexivity.
Qed.

Lemma translateGooglePublic_returns_string text to w v :
  result_of (translateGooglePublic text to w) = Returned v -> is_string v = true.
Proof.
  rewrite translateGooglePublic_run.
  destruct (google_url text to) as [url|]; unfold result_of; simpl;
    [|discriminate].
  destruct (fst (net (google_request url) w)) as [e|res]; simpl; [discriminate|].
  destruct (res_ok res); [|discriminate].
  destruct (res_json res) as [e|json]; [discriminate|].
  destruct (google_chunks json) as [chunks|]; [|discriminate].
  destruct (join_values (lit " ") chunks); [|discriminate].
  intro H; injection H as <-; reflexivity.
Qed.

Lemma google_or_original_returns text base w :
  exists s, result_of (google_or_original text base w) = Returned (JStr s).
Proof.
  rewrite google_or_original_unfold.
  destruct (translateGooglePublic text base w) as [[[v|e] w1] t1] eqn:G.
  - pose proof (translateGooglePublic_returns_string text base w v) as S.
    rewrite G in S; specialize (S eq_refl).
    destruct v; try discriminate S. eexists; reflexivity.
  - eexists; reflexivity.
Qed.

Lemma libre_then_google_returns text base w :
  exists v, result_of (libre_then_google text base w) = Returned v
            /\ (network_serves_text -> is_string v = true).
Proof.
  rewrite libre_then_google_unfold.
  destruct (translateLibre text base w) as [[[v|e] w1] t1] eqn:L.
  - exists v; split; [reflexivity|].
    intro T; apply (translateLibre_returns_string text base w v T).
    rewrite L; reflexivity.
  - destruct (google_or_original_returns text base w1) as [s Hs].
    exists (JStr s); split; [exact Hs | reflexivity].
Qed.

Lemma smartTranslate_returns original target w :
  exists v, result_of (smartTranslate original target w) = Returned v
            /\ (network_serves_text -> is_string v = true).
Proof.
  rewrite smartTranslate_unfold.
  destruct (deepl_eligible target); [|apply libre_then_google_returns].
  destruct (translateDeepL (preProcessText original) target w)
    as [[[v|e] w1] t1] eqn:D.
  - exists v; split; [reflexivity|].
    intro T; apply (translateDeepL_returns_string (preProcessText original) target w v T).
    rewrite D; reflexivity.
  - apply libre_then_google_returns.
Qed.

Lemma smartTranslate_all_fail original target w :
  all_tiers_fail original target w ->
  result_of (smartTranslate original target w)
  = Returned (JStr (preProcessText original)).
Proof.
  intros (w0 & t0 & R & G).
  rewrite (smartTranslate_from_last_resort _ _ _ _ _ R).
  rewrite google_or_original_unfold.
  destruct (translateGooglePublic _ _ w0) as [[[v|e] w1] t1];
    [discriminate G | reflexivity].
Qed.

(** C1, as amended.  For every input pair and every behaviour of the
    network, [smartTranslate] returns a value and throws nothing to its
    caller.  The value is a string whenever the translated-text fields the
    Primary and Pooled providers serve are strings when truthy.  When the
    Primary (if eligible), the Pooled and the Last-Resort adapters all
    throw, the value is the normalized original text. *)
Theorem smartTranslate_total (original target : jsstring) (w : world) :
  (exists v, result_of (smartTranslate original target w) = Returned v)
  /\ (network_serves_text ->
      exists s, result_of (smartTranslate original target w) = Returned (JStr s))
  /\ (all_tiers_fail original target w ->
      result_of (smartTranslate original target w)
      = Returned (JStr (preProcessText original))).
Proof.
  destruct (smartTranslate_returns original target w) as (v & R & S).
  split; [exists v; exact R|].
  split; [|apply smartTranslate_all_fail].
  intro T; specialize (S T).
  destruct v; try discriminate S. eexists; exact R.
Qed.

End Availability.

(* ================================================================== *)
(** ** Degrading to the input text *)

Section Degrade.

Context {RT : Runtime} {PR : Process} {NW : Network}.

Lemma or_else_falsy o d : truthy_opt o = false -> or_else o d = d.
Proof.
  destruct o as [v|]; simpl; [|reflexivity].
  intros ->; reflexivity.
Qed.

Lemma translateDeepL_degrades text target w res w1 data :
  net (deepl_request text target) w = (inr res, w1) ->
  parsed_ok res data ->
  truthy_opt (deepl_field data) = false ->
  translateDeepL text target w
  = (Returned (JStr text), w1,
     [Enter (CallDeepL text target); Fetch (deepl_request text target)]).
Proof.
  intros N [Ok J] F.
  rewrite translateDeepL_run, N; simpl.
  rewrite Ok, J, (or_else_falsy _ _ F); reflexivity.
Qed.

Lemma translateLibreAt_degrades baseUrl text to w res w1 data :
  net (libre_request baseUrl text to) w = (inr res, w1) ->
  parsed_ok_as_json res data ->
  truthy_opt (libre_field data) = false ->
  translateLibreAt baseUrl text to w
  = (Returned (JStr text), w1,
     [Enter (CallLibreAt baseUrl text to);
      Fetch (libre_request baseUrl text to)]).
Proof.
  intros N (Ok & Ct & J) F.
  rewrite translateLibreAt_run, N; simpl.
  rewrite Ok, Ct, J, (or_else_falsy _ _ F); reflexivity.
Qed.

Lemma translateGooglePublic_degrades text to w url res w1 json chunks :
  google_url text to = Some url ->
  net (google_request url) w = (inr res, w1) ->
  parsed_ok res json ->
  google_chunks json = Some chunks ->
  join_values (lit " ") chunks = Some [] ->
  translateGooglePublic text to w
  = (Returned (JStr text), w1,
     [Enter (CallGoogle text to); Fetch (google_request url)]).
Proof.
  intros U N [Ok J] C E.
  rewrite translateGooglePublic_run, U, N; simpl.
  rewrite Ok, J, C, E; reflexivity.
Qed.

Lemma google_chunks_no_first json :
  index0 (Some json) = None -> google_chunks json = Some [].
Proof. intro H; unfold google_chunks; rewrite H; reflexivity. Qed.

(** C2, as amended.  In each tier, a response with a success status whose
    body parses as JSON (and, in the Pooled tier, whose content type names
    [application/json]) but lacks the translated-text field makes the
    adapter return its input text, the normalized original, instead of
    throwing.  The orchestrator then returns that text at once: the events
    of its run end with that request, so no later endpoint and no lower
    tier is attempted. *)
Theorem malformed_success_degrades :
  (* Primary *)
  (forall original target w res w1 data,
     deepl_eligible target = true ->
     net (deepl_request (preProcessText original) target) w = (inr res, w1) ->
     parsed_ok res data ->
     deepl_field data = None ->
     translateDeepL (preProcessText original) target w
     = (Returned (JStr (preProcessText original)), w1,
        [Enter (CallDeepL (preProcessText original) target);
         Fetch (deepl_request (preProcessText original) target)])
     /\ smartTranslate original target w
        = (Returned (JStr (preProcessText original)), w1,
           [Enter (CallDeepL (preProcessText original) target);
            Fetch (deepl_request (preProcessText original) target)]))
  (* Pooled *)
  /\ (forall original target w w0 t0 bs b rest es w1 t1 res w2 data,
        reaches_pooled original target w w0 t0 ->
        libre_list = bs ++ b :: rest ->
        all_failed (preProcessText original) (targetBase_of target)
          bs w0 es w1 t1 ->
        net (libre_request b (preProcessText original) (targetBase_of target)) w1
        = (inr res, w2) ->
        parsed_ok_as_json res data ->
        libre_field data = None ->
        translateLibreAt b (preProcessText original) (targetBase_of target) w1
        = (Returned (JStr (preProcessText original)), w2,
           [Enter (CallLibreAt b (preProcessText original) (targetBase_of target));
            Fetch (libre_request b (preProcessText original)
                     (targetBase_of target))])
        /\ smartTranslate original target w
           = (Returned (JStr (preProcessText original)), w2,
              t0 ++ Enter (CallLibre (preProcessText original)
                             (targetBase_of target))
                 :: t1
                 ++ [Enter (CallLibreAt b (preProcessText original)
                              (targetBase_of target));
                     Fetch (libre_request b (preProcessText original)
                              (targetBase_of target))]))
  (* Last-Resort *)
  /\ (forall original target w w0 t0 url res w1 json,
        reaches_last_resort original target w w0 t0 ->
        google_url (preProcessText original) (targetBase_of target) = Some url ->
        net (google_request url) w0 = (inr res, w1) ->
        parsed_ok res json ->
        index0 (Some json) = None ->
        translateGooglePublic (preProcessText original) (targetBase_of target) w0
        = (Returned (JStr (preProcessText original)), w1,
           [Enter (CallGoogle (preProcessText original) (targetBase_of target));
            Fetch (google_request url)])
        /\ smartTranslate original target w
           = (Returned (JStr (preProcessText original)), w1,
              t0 ++ [Enter (CallGoogle (preProcessText original)
                              (targetBase_of target));
                     Fetch (google_request url)])).
Proof.
  split; [|split].
  - intros original target w res w1 data El N P F.
    assert (D := translateDeepL_degrades _ target w res w1 data N P
                   (f_equal truthy_opt F)).
    split; [exact D|].
    apply smartTranslate_primary_returned; assumption.
  - intros original target w w0 t0 bs b rest es w1 t1 res w2 data
      R L AF N P F.
    assert (D := translateLibreAt_degrades b _ _ w1 res w2 data N P
                   (f_equal truthy_opt F)).
    split; [exact D|].
    apply (smartTranslate_pooled_returned _ _ _ w0 t0 _ _ _ R).
    exact (translateLibre_first_return _ _ _ _ _ _ _ _ _ _ _ _ L AF D).
  - intros original target w w0 t0 url res w1 json R U N P F.
    assert (D := translateGooglePublic_degrades _ _ w0 url res w1 json []
                   U N P (google_chunks_no_first json F) eq_refl).
    split; [exact D|].
    rewrite (smartTranslate_from_last_resort _ _ _ _ _ R).
    rewrite google_or_original_unfold, D; reflexivity.
Qed.

(** C10.  In the Primary and Pooled tiers a translated-text field that is
    present but is the empty string (or any other falsy value) is treated
    as a missing field is: two responses that differ only in that give the
    same result.  When the adapter accepts the response, that result is
    its input text, not the empty translation.  In the Last-Resort tier
    the input text is returned when the joined segments form the empty
    string. *)
Theorem falsy_translation_degrades :
  truthy_opt (Some (JStr [])) = false
  (* Primary: as a missing field *)
  /\ (forall text target w w' res res' w1 w1' data data',
        net (deepl_request text target) w = (inr res, w1) ->
        net (deepl_request text target) w' = (inr res', w1') ->
        res_status res' = res_status res ->
        res_json res = inr data ->
        res_json res' = inr data' ->
        truthy_opt (deepl_field data) = false ->
        deepl_field data' = None ->
        result_of (translateDeepL text target w)
        = result_of (translateDeepL text target w'))
  (* Primary: the input text *)
  /\ (forall text target w res w1 data,
        net (deepl_request text target) w = (inr res, w1) ->
        parsed_ok res data ->
        truthy_opt (deepl_field data) = false ->
        result_of (translateDeepL text target w) = Returned (JStr text))
  (* Pooled: as a missing field *)
  /\ (forall baseUrl text to w w' res res' w1 w1' data data',
        net (libre_request baseUrl text to) w = (inr res, w1) ->
        net (libre_request baseUrl text to) w' = (inr res', w1') ->
        res_status res' = res_status res ->
        res_content_type res' = res_content_type res ->
        res_text res' = res_text res ->
        res_json res = inr data ->
        res_json res' = inr data' ->
        truthy_opt (libre_field data) = false ->
        libre_field data' = None ->
        result_of (translateLibreAt baseUrl text to w)
        = result_of (translateLibreAt baseUrl text to w'))
  (* Pooled: the input text *)
  /\ (forall baseUrl text to w res w1 data,
        net (libre_request baseUrl text to) w = (inr res, w1) ->
        parsed_ok_as_json res data ->
        truthy_opt (libre_field data) = false ->
        result_of (translateLibreAt baseUrl text to w) = Returned (JStr text))
  (* Last-Resort *)
  /\ (forall text to w url res w1 json chunks,
        google_url text to = Some url ->
        net (google_request url) w = (inr res, w1) ->
        parsed_ok res json ->
        google_chunks json = Some chunks ->
        join_values (lit " ") chunks = Some [] ->
        result_of (translateGooglePublic text to w) = Returned (JStr text)).
Proof.
  split; [reflexivity|].
  split; [|split; [|split; [|split]]].
  - intros text target w w' res res' w1 w1' data data' N N' St J J' F F'.
    rewrite !translateDeepL_run, N, N'; unfold result_of; simpl.
    unfold res_ok; rewrite St, J, J', F', (or_else_falsy _ _ F); reflexivity.
  - intros text target w res w1 data N P F.
    rewrite (translateDeepL_degrades _ _ _ _ _ _ N P F); reflexivity.
  - intros baseUrl text to w w' res res' w1 w1' data data'
      N N' St Ct Tx J J' F F'.
    rewrite !translateLibreAt_run, N, N'; unfold result_of; simpl.
    unfold res_ok, content_type_of, text_or_empty.
    rewrite St, Ct, Tx, J, J', F', (or_else_falsy _ _ F); reflexivity.
  - intros baseUrl text to w res w1 data N P F.
    rewrite (translateLibreAt_degrades _ _ _ _ _ _ _ N P F); reflexivity.
  - intros text to w url res w1 json chunks U N P C E.
    rewrite (translateGooglePublic_degrades _ _ _ _ _ _ _ _ U N P C E).
    reflexivity.
Qed.

End Degrade.

(* ================================================================== *)
(** ** Precedence of the tiers *)

Section Precedence.

Context {RT : Runtime} {PR : Process} {NW : Network}.

Lemma Set_has_In set x : Set_has set x = true <-> In x set.
Proof.
  unfold Set_has; rewrite existsb_exists; split.
  - intros (y & Hy & E); apply str_eqb_eq in E; subst y; exact Hy.
  - intro H; exists x; split; [exact H | apply str_eqb_refl].
Qed.

(** The Primary is tried exactly when a non-empty key is configured and
    the uppercased target is in the supported set. *)
Lemma deepl_eligible_iff target :
  deepl_eligible target = true
  <-> (exists k, DEEPL_KEY = Some k /\ k <> [])
      /\ In (toUpperCase target) DEEPL_SUPPORTED_TARGETS.
Proof.
  unfold deepl_eligible; rewrite andb_true_iff, Set_has_In.
  split; intros [K S]; (split; [|exact S]).
  - destruct DEEPL_KEY as [k|]; [|discriminate].
    exists k; split; [reflexivity | apply str_truthy_nonempty, K].
  - destruct K as (k & -> & Hk); apply str_truthy_nonempty, Hk.
Qed.

(** C3.  When a Primary credential is configured, the uppercased target
    is in the supported set and the Primary adapter returns, the
    orchestrator returns the Primary's result; the only provider function
    entered is the Primary, and the only request made is its own. *)
Theorem primary_success_stops_chain original target w v w1 t1 :
  (exists k, DEEPL_KEY = Some k /\ k <> []) ->
  In (toUpperCase target) DEEPL_SUPPORTED_TARGETS ->
  translateDeepL (preProcessText original) target w = (Returned v, w1, t1) ->
  smartTranslate original target w = (Returned v, w1, t1)
  /\ entered (trace_of (smartTranslate original target w))
     = [CallDeepL (preProcessText original) target]
  /\ trace_of (smartTranslate original target w)
     = [Enter (CallDeepL (preProcessText original) target);
        Fetch (deepl_request (preProcessText original) target)].
Proof.
  intros K S D.
  assert (El : deepl_eligible target = true)
    by (apply deepl_eligible_iff; split; assumption).
  rewrite (smartTranslate_primary_returned _ _ _ _ _ _ El D).
  split; [reflexivity|].
  rewrite translateDeepL_run in D; injection D as _ _ <-.
  split; reflexivity.
Qed.

Lemma ZH_TW_not_supported :
  ~ In (toUpperCase (lit "ZH-TW")) DEEPL_SUPPORTED_TARGETS.
Proof.
  rewrite <- Set_has_In. vm_compute. discriminate.
Qed.

(** C5.  For the target ["ZH-TW"], whatever the text and whether or not a
    Primary credential is configured, the Primary adapter is never
    entered, because ["ZH-TW"] is not in the supported set; the first
    thing the orchestrator does is to enter the Pooled adapter with base
    code ["zh"]. *)
Theorem ZH_TW_skips_primary original w :
  ~ In (toUpperCase (lit "ZH-TW")) DEEPL_SUPPORTED_TARGETS
  /\ Forall (fun c => is_primary c = false)
       (entered (trace_of (smartTranslate original (lit "ZH-TW") w)))
  /\ exists t,
       trace_of (smartTranslate original (lit "ZH-TW") w)
       = Enter (CallLibre (preProcessText original) (lit "zh")) :: t.
Proof.
  split; [exact ZH_TW_not_supported|].
  assert (El : deepl_eligible (lit "ZH-TW") = false).
  { destruct (deepl_eligible (lit "ZH-TW")) eqn:E; [|reflexivity].
    apply deepl_eligible_iff in E; destruct E as [_ E].
    destruct (ZH_TW_not_supported E). }
  rewrite smartTranslate_unfold, El.
  change (targetBase_of (lit "ZH-TW")) with (lit "zh").
  split; [apply libre_then_google_entered | apply libre_then_google_trace_head].
Qed.

Lemma split_head_spec sep s :
  ~ In sep (split_head sep s)
  /\ (s = split_head sep s
      \/ exists tail, s = split_head sep s ++ sep :: tail).
Proof.
  induction s as [|c s [IH1 IH2]]; simpl.
  - split; [tauto | left; reflexivity].
  - destruct (c =? sep) eqn:E.
    + apply N.eqb_eq in E; subst c.
      split; [simpl; tauto | right; exists s; reflexivity].
    + apply N.eqb_neq in E. split.
      * simpl; intros [H | H]; [exact (E H) | exact (IH1 H)].
      * destruct IH2 as [H | [tail H]].
        -- left; f_equal; exact H.
        -- right; exists tail; simpl; f_equal; exact H.
Qed.

(** C6.  The base code is the target code cut before its first ['-'] and
    lowercased, so ["PT-PT"] gives ["pt"].  Whenever the Primary adapter
    is eligible and throws, the orchestrator logs the failure and the
    very next thing it does is to enter the Pooled adapter with that base
    code. *)
Theorem base_code_and_fallback :
  targetBase_of (lit "PT-PT") = lit "pt"
  /\ (forall target,
        exists head,
          targetBase_of target = toLowerCase head
          /\ ~ In 45 head
          /\ (target = head \/ exists tail, target = head ++ 45 :: tail))
  /\ (forall original target w e w1 t1,
        deepl_eligible target = true ->
        translateDeepL (preProcessText original) target w = (Thrown e, w1, t1) ->
        exists t2,
          trace_of (smartTranslate original target w)
          = t1 ++ Warn (WarnDeepL e)
               :: Enter (CallLibre (preProcessText original)
                           (targetBase_of target))
               :: t2).
Proof.
  split; [reflexivity|]. split.
  - intro target; exists (split_head 45 target).
    split; [reflexivity | apply split_head_spec].
  - intros original target w e w1 t1 El D.
    rewrite smartTranslate_unfold, El, D.
    destruct (libre_then_google_trace_head (preProcessText original)
                (targetBase_of target) w1) as [t2 H].
    exists t2; unfold after, trace_of at 1; simpl.
    rewrite H, <- app_assoc; reflexivity.
Qed.

End Precedence.

(* ================================================================== *)
(** ** The pool *)

Section PoolClaims.

Context {RT : Runtime} {PR : Process} {NW : Network}.

(** C4.  [translateLibre] attempts the endpoints of the pool in the
    order of the pool, each entry once at most: the endpoints attempted
    are an initial part of the pool.  If it returns, the endpoints before
    the last one attempted have all thrown, the last one attempted has
    returned that same value, and the rest of the pool is not attempted.
    If it throws, every endpoint of the pool has been attempted and has
    thrown, and the error thrown is that of the last endpoint.  The pool
    is never empty. *)
Theorem translateLibre_pool text to w :
  libre_list <> []
  /\ match translateLibre text to w with
     | (Returned v, w', t) =>
         exists bs b rest es w1 t1 t2,
           libre_list = bs ++ b :: rest
           /\ all_failed text to bs w es w1 t1
           /\ translateLibreAt b text to w1 = (Returned v, w', t2)
           /\ t = Enter (CallLibre text to) :: t1 ++ t2
           /\ attempted t = bs ++ [b]
     | (Thrown e, w', t) =>
         exists es t1,
           all_failed text to libre_list w (es ++ [e]) w' t1
           /\ t = Enter (CallLibre text to) :: t1
           /\ attempted t = libre_list
     end.
Proof.
  split; [apply libre_list_nonempty|].
  rewrite translateLibre_unfold.
  pose proof (translateLibre_loop_spec text to libre_list None w) as S.
  destruct (translateLibre_loop libre_list text to None w) as [[[v|e] w1] t1];
    unfold after, result_of, world_of, trace_of; simpl.
  - destruct S as (bs & b & rest & es & w2 & t2 & t3 & L & AF & R & ->).
    exists bs, b, rest, es, w2, t2, t3.
    repeat (split; [assumption || reflexivity|]).
    simpl; rewrite attempted_app.
    rewrite (proj1 (all_failed_attempted _ _ _ _ _ _ _ AF)).
    pose proof (translateLibreAt_trace b text to w2) as T.
    rewrite R in T; simpl in T; subst t3; reflexivity.
  - destruct S as (es & AF & ->).
    destruct (all_failed_attempted _ _ _ _ _ _ _ AF) as [At Len].
    destruct (exists_last (l := es)) as (es' & e' & ->).
    { intros ->; simpl in Len.
      destruct libre_list eqn:L; [|discriminate Len].
      exact (libre_list_nonempty L). }
    rewrite last_last.
    exists es', t1; repeat split; [exact AF | exact At].
Qed.

End PoolClaims.

(* ================================================================== *)
(** ** The Last-Resort extraction *)

Section ExtractionClaims.

Context {RT : Runtime} {PR : Process} {NW : Network}.

Lemma all_some_kept heads :
  Forall text_or_missing heads ->
  all_some
    (map (fun x => match x with
                   | None | Some JNull => Some []
                   | Some v => toStr v
                   end) (filter truthy_opt heads))
  = Some (kept_strings heads).
Proof.
  induction 1 as [|head heads Hh _ IH]; [reflexivity|].
  destruct head as [v|]; [|exact IH].
  simpl filter. destruct (truthy v) eqn:T.
  - pose proof (Hh v eq_refl T) as S.
    destruct v as [| | |s| |]; try discriminate S.
    destruct s as [|c s]; [discriminate T|].
    simpl. rewrite IH. reflexivity.
  - destruct v as [| | |s| |]; try exact IH.
    destruct s as [|c s]; [exact IH | discriminate T].
Qed.

(** On the documented shape the join is that of the kept strings. *)
Lemma join_values_kept sep heads :
  Forall text_or_missing heads ->
  join_values sep (filter truthy_opt heads)
  = Some (join sep (kept_strings heads)).
Proof.
  intro H. unfold join_values. rewrite (all_some_kept heads H). reflexivity.
Qed.

Lemma kept_strings_nonempty heads : Forall (fun s => s <> []) (kept_strings heads).
Proof.
  induction heads as [|[v|] heads IH]; simpl; [constructor| |exact IH].
  destruct v as [| | |s| |]; try exact IH.
  destruct s as [|c s]; [exact IH|].
  constructor; [discriminate | exact IH].
Qed.

Lemma join_nonempty sep parts :
  Forall (fun s : jsstring => s <> []) parts -> parts <> [] ->
  join sep parts <> [].
Proof.
  intros F NE. destruct parts as [|p rest]; [congruence|].
  inversion F as [|? ? Hp _]; subst.
  destruct p as [|c p]; [congruence|].
  destruct rest; simpl; discriminate.
Qed.

Lemma kept_strings_surviving heads :
  Forall text_or_missing heads ->
  surviving heads = map JStr (kept_strings heads).
Proof.
  induction 1 as [|head heads Hh _ IH]; [reflexivity|].
  destruct head as [v|]; [|exact IH].
  simpl surviving. destruct (truthy v) eqn:T.
  - pose proof (Hh v eq_refl T) as S.
    destruct v as [| | |s| |]; try discriminate S.
    destruct s as [|c s]; [discriminate T|].
    simpl. rewrite IH. reflexivity.
  - destruct v as [| | |s| |]; try exact IH.
    destruct s as [|c s]; [exact IH | discriminate T].
Qed.

(** C8.  Given a response with a success status whose body is an array
    with an array of segments as its first element, each segment's first
    element being text or empty or missing, the Last-Resort adapter takes
    the first element of each segment, filters out the empty and missing
    ones, and returns the surviving elements joined with a single space;
    if no element survives, it returns the input text. *)
Theorem translateGooglePublic_extraction
    text to w url res w1 segs rest :
  google_url text to = Some url ->
  net (google_request url) w = (inr res, w1) ->
  parsed_ok res (JArr (JArr segs :: rest)) ->
  Forall text_or_missing (map first_of segs) ->
  surviving (map first_of segs)
  = map JStr (kept_strings (map first_of segs))
  /\ (kept_strings (map first_of segs) <> [] ->
      result_of (translateGooglePublic text to w)
      = Returned (JStr (join (lit " ") (kept_strings (map first_of segs)))))
  /\ (kept_strings (map first_of segs) = [] ->
      result_of (translateGooglePublic text to w) = Returned (JStr text)).
Proof.
  intros U N [Ok J] Shape.
  split; [apply kept_strings_surviving, Shape|].
  assert (R : result_of (translateGooglePublic text to w)
              = Returned
                  (JStr (if str_truthy
                              (join (lit " ") (kept_strings (map first_of segs)))
                         then join (lit " ") (kept_strings (map first_of segs))
                         else text))).
  { rewrite translateGooglePublic_run, U, N; unfold result_of; simpl.
    rewrite Ok, J; simpl.
    change (map (fun seg => index0 (Some seg)) segs) with (map first_of segs).
    rewrite (join_values_kept _ _ Shape); reflexivity. }
  rewrite R; split.
  - intro H.
    pose proof (join_nonempty (lit " ") _ (kept_strings_nonempty _) H) as K.
    apply str_truthy_nonempty in K; rewrite K; reflexivity.
  - intros ->; reflexivity.
Qed.

End ExtractionClaims.

(* ================================================================== *)
(** ** Runs on concrete inputs *)

Import Concrete.
#[local] Existing Instance runtime.
#[local] Existing Instance scripted.

(** The pool as configured: the default, a list with blanks, and an
    empty setting. *)
Example pools :
  libre_list (PR := without_key)
  = [lit "https://libretranslate.de"; lit "http://localhost:5000"]
  /\ libre_list (PR := pool_of " a , ,b,") = [lit "a"; lit "b"]
  /\ libre_list (PR := pool_of "") = [lit "https://libretranslate.de"].
Proof. repeat split; reflexivity. Qed.

(** The scenario of the specification: the normalizer maps the text to
    ["thank you"], the Primary receives that and answers. *)
Example arigatou_via_primary :
  result_of (run_smart with_key
               [json_response 200 (deepl_body (lit "Thank you!"))]
               arigatou "EN-US")
  = Returned (JStr (lit "Thank you!"))
  /\ entered (trace_of (run_smart with_key
                          [json_response 200 (deepl_body (lit "Thank you!"))]
                          arigatou "EN-US"))
     = [CallDeepL (lit "thank you") (lit "EN-US")].
Proof. split; reflexivity. Qed.

(** A pool [A, B, C] where A times out, B answers 503 and C translates. *)
Example pool_of_three :
  result_of (run_libre (pool_of "http://a,http://b/,http://c")
               [down; json_response 503 JNull;
                json_response 200 (libre_body (lit "ola"))]
               (lit "hi") "pt")
  = Returned (JStr (lit "ola"))
  /\ attempted (trace_of (run_libre (pool_of "http://a,http://b/,http://c")
                            [down; json_response 503 JNull;
                             json_response 200 (libre_body (lit "ola"))]
                            (lit "hi") "pt"))
     = [lit "http://a"; lit "http://b/"; lit "http://c"].
Proof. split; reflexivity. Qed.

(** *** C1 *)

(** The Primary answers 200 with [true] where the translation should be:
    the orchestrator returns that boolean, not a string. *)
Lemma smartTranslate_returns_a_boolean :
  result_of (run_smart with_key
               [json_response 200
                  (JObj [(lit "translations",
                          JArr [JObj [(lit "text", JBool true)]])])]
               (lit "hi") "EN-US")
  = Returned (JBool true)
  /\ ~ (exists s,
          result_of (run_smart with_key
                       [json_response 200
                          (JObj [(lit "translations",
                                  JArr [JObj [(lit "text", JBool true)]])])]
                       (lit "hi") "EN-US")
          = Returned (JStr s)).
Proof.
  split; [reflexivity|].
  intros [s H]; vm_compute in H; discriminate H.
Qed.

(** With no key and a dead network every tier throws, and the text comes
    back; on a network that serves a well-formed Primary answer the result
    is a string. *)
Lemma smartTranslate_total_witness :
  result_of (run_smart without_key [] (lit "hi") "EN-US")
  = Returned (JStr (lit "hi"))
  /\ exists s,
       result_of (smartTranslate (RT := runtime) (PR := with_key)
                    (NW := steady (json_response 200 (deepl_body (lit "oi"))))
                    (lit "hi") (lit "PT-PT") tt)
       = Returned (JStr s).
Proof.
  split.
  - refine (proj2 (proj2 (smartTranslate_total (RT := runtime)
                            (PR := without_key) (NW := scripted)
                            (lit "hi") (lit "EN-US") [])) _).
    exists [], (trace_of (run_libre without_key [] (lit "hi") "en")
                ++ [Warn (WarnLibre down_error)]).
    split; [|reflexivity].
    exists [], [], down_error,
      (trace_of (run_libre without_key [] (lit "hi") "en")).
    split; [left; repeat split; reflexivity|].
    split; reflexivity.
  - refine (proj1 (proj2 (smartTranslate_total (RT := runtime)
                            (PR := with_key)
                            (NW := steady (json_response 200
                                             (deepl_body (lit "oi"))))
                            (lit "hi") (lit "PT-PT") tt)) _).
    intros r w res w1 data N J.
    injection N as <- _. injection J as <-.
    split; intros v H; [injection H as <-; reflexivity | discriminate H].
Defined.

(** *** C2 *)

(** A pool endpoint answers 200 with the body [{}] served as
    [text/html]: the status is a success and the body lacks
    [translatedText], yet the adapter throws instead of returning its
    input, and the orchestrator goes on to the Last-Resort tier. *)
Lemma success_status_without_json_type_throws :
  (exists res,
     net (Network := scripted)
       (libre_request (lit "http://a") (lit "hi") (lit "pt"))
       [html_response 200 (JObj [])]
     = (inr res, [])
     /\ res_ok res = true
     /\ res_json res = inr (JObj [])
     /\ libre_field (JObj []) = None)
  /\ result_of (translateLibreAt (RT := runtime) (NW := scripted)
                  (lit "http://a") (lit "hi") (lit "pt")
                  [html_response 200 (JObj [])])
     = Thrown (LibreContentTypeError (lit "text/html") (lit "http://a") [])
  /\ entered (trace_of (run_smart (pool_of "http://a")
                          [html_response 200 (JObj [])] (lit "hi") "PT-PT"))
     = [CallLibre (lit "hi") (lit "pt");
        CallLibreAt (lit "http://a") (lit "hi") (lit "pt");
        CallGoogle (lit "hi") (lit "pt")].
Proof.
  split; [|split; reflexivity].
  eexists; repeat split; reflexivity.
Qed.

(** The three tiers on a body [{}] (for the Last-Resort tier, [[]]) that
    the adapter accepts. *)
Lemma malformed_success_degrades_witness :
  run_smart with_key [json_response 200 (JObj [])] (lit "hi") "EN-US"
  = (Returned (JStr (lit "hi")), [],
     [Enter (CallDeepL (lit "hi") (lit "EN-US"));
      Fetch (deepl_request (PR := with_key) (lit "hi") (lit "EN-US"))])
  /\ run_smart (pool_of "http://a,http://b")
       [down; json_response 200 (JObj [])] (lit "hi") "PT-PT"
     = (Returned (JStr (lit "hi")), [],
        [Enter (CallLibre (lit "hi") (lit "pt"));
         Enter (CallLibreAt (lit "http://a") (lit "hi") (lit "pt"));
         Fetch (libre_request (lit "http://a") (lit "hi") (lit "pt"));
         Warn (WarnLibreAt (lit "http://a") down_error);
         Enter (CallLibreAt (lit "http://b") (lit "hi") (lit "pt"));
         Fetch (libre_request (lit "http://b") (lit "hi") (lit "pt"))])
  /\ result_of (run_smart (pool_of "http://a")
                  [down; json_response 200 (JArr [])] (lit "hi") "PT-PT")
     = Returned (JStr (lit "hi")).
Proof.
  pose proof (malformed_success_degrades (RT := runtime) (PR := with_key)
                (NW := scripted)) as (P & _ & _).
  pose proof (malformed_success_degrades (RT := runtime)
                (PR := pool_of "http://a,http://b") (NW := scripted))
    as (_ & Q & _).
  pose proof (malformed_success_degrades (RT := runtime)
                (PR := pool_of "http://a") (NW := scripted)) as (_ & _ & R).
  split; [|split].
  - refine (proj2 (P (lit "hi") (lit "EN-US") [json_response 200 (JObj [])]
                     (json_res 200 (JObj [])) [] (JObj []) _ _ _ _));
      [reflexivity | reflexivity | split; reflexivity | reflexivity].
  - refine (proj2 (Q (lit "hi") (lit "PT-PT")
                     [down; json_response 200 (JObj [])]
                     [down; json_response 200 (JObj [])] []
                     [lit "http://a"] (lit "http://b") [] [down_error]
                     [json_response 200 (JObj [])]
                     [Enter (CallLibreAt (lit "http://a") (lit "hi") (lit "pt"));
                      Fetch (libre_request (lit "http://a") (lit "hi") (lit "pt"));
                      Warn (WarnLibreAt (lit "http://a") down_error)]
                     (json_res 200 (JObj [])) [] (JObj []) _ _ _ _ _ _)).
    + left; repeat split; reflexivity.
    + reflexivity.
    + refine (all_failed_cons _ _ (lit "http://a") [] _ down_error
                [json_response 200 (JObj [])]
                [Enter (CallLibreAt (lit "http://a") (lit "hi") (lit "pt"));
                 Fetch (libre_request (lit "http://a") (lit "hi") (lit "pt"))]
                [] _ [] _ _); [reflexivity | constructor].
    + reflexivity.
    + repeat split; reflexivity.
    + reflexivity.
  - pose proof (R (lit "hi") (lit "PT-PT")
                  [down; json_response 200 (JArr [])]
                  [json_response 200 (JArr [])]
                  (trace_of (run_libre (pool_of "http://a") [down]
                               (lit "hi") "pt")
                   ++ [Warn (WarnLibre down_error)])
                  (lit "https://translate.googleapis.com/translate_a/single?client=gtx&sl=auto&tl=pt&dt=t&q=hi")
                  (json_res 200 (JArr [])) [] (JArr [])) as H.
    refine (f_equal result_of (proj2 (H _ _ _ _ _))).
    + exists [down; json_response 200 (JArr [])], [], down_error,
        (trace_of (run_libre (pool_of "http://a") [down] (lit "hi") "pt")).
      split; [left; repeat split; reflexivity|].
      split; reflexivity.
    + reflexivity.
    + reflexivity.
    + split; reflexivity.
    + reflexivity.
Defined.

(** *** C3 *)

Lemma primary_success_stops_chain_witness :
  run_smart with_key [json_response 200 (deepl_body (lit "Thank you!"))]
    arigatou "EN-US"
  = (Returned (JStr (lit "Thank you!")), [],
     [Enter (CallDeepL (lit "thank you") (lit "EN-US"));
      Fetch (deepl_request (PR := with_key) (lit "thank you") (lit "EN-US"))]).
Proof.
  refine (proj1 (primary_success_stops_chain (PR := with_key)
                   arigatou (lit "EN-US")
                   [json_response 200 (deepl_body (lit "Thank you!"))]
                   _ _ _ _ _ _)).
  - exists (lit "secret"); split; [reflexivity | discriminate].
  - apply Set_has_In; reflexivity.
  - reflexivity.
Defined.

(** *** C6 *)

(** The Primary answers 500 for ["PT-PT"]: the Pooled adapter is entered
    next with ["pt"]. *)
Lemma base_code_and_fallback_witness :
  exists t2,
    trace_of (run_smart with_key [json_response 500 JNull] (lit "hi") "PT-PT")
    = [Enter (CallDeepL (lit "hi") (lit "PT-PT"));
       Fetch (deepl_request (PR := with_key) (lit "hi") (lit "PT-PT"))]
      ++ Warn (WarnDeepL (DeepLError 500))
         :: Enter (CallLibre (lit "hi") (lit "pt")) :: t2.
Proof.
  refine (proj2 (proj2 (base_code_and_fallback (PR := with_key)))
            (lit "hi") (lit "PT-PT") [json_response 500 JNull]
            (DeepLError 500) [] _ _ _); reflexivity.
Defined.

(** *** C7 and C9 *)

Lemma preProcessText_contract_witness :
  preProcessText (lit "  Dankie ") = lit "thank you"
  /\ preProcessText (lit " Hello ") = lit " Hello ".
Proof.
  split.
  - refine (proj1 (proj2 (preProcessText_contract (lit "  Dankie ")))
              (lit "thank you") _).
    vm_compute; tauto.
  - refine (proj1 (proj2 (proj2 (preProcessText_contract (lit " Hello ")))) _).
    vm_compute; intuition discriminate.
Defined.

Lemma preProcessText_idempotent_witness :
  preProcessText (preProcessText arigatou) = preProcessText arigatou
  /\ ~ In (lookup_key (lit "good evening")) (map fst dict).
Proof.
  split.
  - exact (proj1 preProcessText_idempotent arigatou).
  - refine (proj2 preProcessText_idempotent
              [0x3053; 0x3093; 0x3070; 0x3093; 0x306f] (lit "good evening") _).
    vm_compute; tauto.
Defined.

(** *** C8 *)

(** Outside the documented shape.  A segment that starts with the array
    [[null]]: the element is kept, its string form is empty, and the input
    text is returned.  A segment that starts with an object with a
    [toString] key: the join throws, and the orchestrator, having caught
    that, returns the text. *)
Example segment_heads_that_are_not_text :
  result_of (run_google
               [json_response 200 (JArr [JArr [JArr [JArr [JNull]]]])]
               (lit "hi") "pt")
  = Returned (JStr (lit "hi"))
  /\ result_of (run_google
                  [json_response 200
                     (JArr [JArr [JArr [JObj [(lit "toString", JBool true)]]]])]
                  (lit "hi") "pt")
     = Thrown TypeError_cannot_convert_object
  /\ result_of (run_smart (pool_of "http://a")
                  [down;
                   json_response 200
                     (JArr [JArr [JArr [JObj [(lit "toString", JBool true)]]]])]
                  (lit "hi") "PT-PT")
     = Returned (JStr (lit "hi")).
Proof. repeat split; reflexivity. Qed.

(** Two chunks, a missing segment and an empty chunk; and no segment. *)
Lemma translateGooglePublic_extraction_witness :
  result_of (run_google
               [json_response 200 (JArr [JArr bom_dia; JNull; JStr (lit "en")])]
               (lit "good day") "pt")
  = Returned (JStr (lit "bom dia"))
  /\ result_of (run_google [json_response 200 (JArr [JArr []])] (lit "hi") "pt")
     = Returned (JStr (lit "hi")).
Proof.
  assert (Shape : Forall text_or_missing (map first_of bom_dia)).
  { repeat constructor; intros v H T; try discriminate H;
      injection H as <-; try reflexivity; discriminate T. }
  split.
  - refine (proj1 (proj2 (translateGooglePublic_extraction
                     (lit "good day") (lit "pt")
                     [json_response 200
                        (JArr [JArr bom_dia; JNull; JStr (lit "en")])]
                     (lit "https://translate.googleapis.com/translate_a/single?client=gtx&sl=auto&tl=pt&dt=t&q=good%20day")
                     (json_res 200 (JArr [JArr bom_dia; JNull; JStr (lit "en")]))
                     [] bom_dia [JNull; JStr (lit "en")] _ _ _ Shape)) _).
    + reflexivity.
    + reflexivity.
    + split; reflexivity.
    + vm_compute; discriminate.
  - refine (proj2 (proj2 (translateGooglePublic_extraction (lit "hi") (lit "pt")
                     [json_response 200 (JArr [JArr []])]
                     (lit "https://translate.googleapis.com/translate_a/single?client=gtx&sl=auto&tl=pt&dt=t&q=hi")
                     (json_res 200 (JArr [JArr []])) [] [] [] _ _ _ _)) _).
    + reflexivity.
    + reflexivity.
    + split; reflexivity.
    + constructor.
    + reflexivity.
Defined.

(** *** C10 *)

(** An empty [text], an empty [translatedText], and segments that join to
    the empty string. *)
Lemma falsy_translation_degrades_witness :
  result_of (translateDeepL (PR := with_key) (lit "hi") (lit "EN-US")
               [json_response 200 (deepl_body [])])
  = Returned (JStr (lit "hi"))
  /\ result_of (translateLibreAt (lit "http://a") (lit "hi") (lit "pt")
                  [json_response 200 (libre_body [])])
     = Returned (JStr (lit "hi"))
  /\ result_of (run_google [json_response 200 (JArr [JArr [JArr [JArr []]]])]
                  (lit "hi") "pt")
     = Returned (JStr (lit "hi")).
Proof.
  pose proof (falsy_translation_degrades (PR := with_key))
    as (_ & _ & P & _ & Q & R).
  split; [|split].
  - refine (P (lit "hi") (lit "EN-US") _ (json_res 200 (deepl_body [])) []
              (deepl_body []) _ _ _);
      [reflexivity | split; reflexivity | reflexivity].
  - refine (Q (lit "http://a") (lit "hi") (lit "pt") _
              (json_res 200 (libre_body [])) [] (libre_body []) _ _ _);
      [reflexivity | repeat split; reflexivity | reflexivity].
  - refine (R (lit "hi") (lit "pt") _
              (lit "https://translate.googleapis.com/translate_a/single?client=gtx&sl=auto&tl=pt&dt=t&q=hi")
              (json_res 200 (JArr [JArr [JArr [JArr []]]])) []
              (JArr [JArr [JArr [JArr []]]]) [Some (JArr [])] _ _ _ _ _);
      [reflexivity | reflexivity | split; reflexivity | reflexivity
      | reflexivity].
Defined.

(* ================================================================== *)
(** ** [chunk] *)

Section ChunkFacts.

Context {A : Type}.
Local Open Scope nat_scope.

Lemma firstn_plus (a b : nat) (l : list A) :
  firstn (a + b) l = firstn a l ++ firstn b (skipn a l).
Proof.
  revert l; induction a as [|a IH]; intro l; [reflexivity|].
  destruct l as [|x l]; simpl.
  - rewrite firstn_nil; reflexivity.
  - rewrite IH; reflexivity.
Qed.

Lemma skipn_plus (a b : nat) (l : list A) :
  skipn a (skipn b l) = skipn (b + a) l.
Proof.
  revert l; induction b as [|b IH]; intro l; [reflexivity|].
  destruct l as [|x l]; simpl; [apply skipn_nil | apply IH].
Qed.

Lemma length_skipn_cons size (x : A) (l : list A) :
  1 <= size -> length (skipn size (x :: l)) <= length l.
Proof.
  intro Hs. rewrite length_skipn.
  change (length (x :: l)) with (S (length l)). lia.
Qed.

(** Beyond the length of the list the first argument of [pieces] does
    not matter. *)
Lemma pieces_enough size n m (l : list A) :
  1 <= size -> length l <= n -> length l <= m ->
  pieces n size l = pieces m size l.
Proof.
  intro Hs; revert m l; induction n as [|n IH]; intros m l Hn Hm.
  - destruct l; [|simpl in Hn; lia]. destruct m; reflexivity.
  - destruct l as [|x l]; [destruct m; reflexivity|].
    destruct m as [|m]; [simpl in Hm; lia|].
    simpl pieces. f_equal.
    pose proof (length_skipn_cons size x l Hs) as L.
    simpl in Hn, Hm. apply IH; lia.
Qed.

Lemma chunk_loop_pieces size fuel (arr : list A) i out :
  1 <= size -> length arr - i < fuel ->
  chunk_loop fuel arr size i out
  = Some (out ++ pieces (length arr - i) size (skipn i arr)).
Proof.
  intro Hs; revert i out; induction fuel as [|fuel IH]; intros i out Hf;
    [lia|].
  simpl. destruct (i <? length arr) eqn:E.
  - apply Nat.ltb_lt in E.
    rewrite IH by lia. f_equal. rewrite <- app_assoc. f_equal. simpl.
    destruct (length arr - i) as [|k] eqn:K; [lia|].
    destruct (skipn i arr) as [|x rest] eqn:S.
    { apply (f_equal (@length A)) in S; rewrite length_skipn in S.
      simpl in S; lia. }
    simpl pieces. unfold slice. rewrite S.
    replace (i + size - i) with size by lia. f_equal.
    rewrite <- S, skipn_plus.
    apply pieces_enough; [exact Hs | |]; rewrite length_skipn; lia.
  - apply Nat.ltb_ge in E.
    replace (length arr - i) with 0 by lia.
    simpl. rewrite app_nil_r. reflexivity.
Qed.

Lemma chunk_pieces size fuel (arr : list A) :
  1 <= size -> length arr < fuel ->
  chunk fuel arr size = Some (pieces (length arr) size arr).
Proof.
  intros Hs Hf. unfold chunk.
  rewrite chunk_loop_pieces by lia.
  rewrite Nat.sub_0_r. reflexivity.
Qed.

Lemma pieces_concat size n (l : list A) :
  1 <= size -> length l <= n -> concat (pieces n size l) = l.
Proof.
  intro Hs; revert l; induction n as [|n IH]; intros l Hn.
  - destruct l; [reflexivity | simpl in Hn; lia].
  - destruct l as [|x l]; [reflexivity|].
    simpl pieces. simpl concat.
    rewrite IH; [apply firstn_skipn|].
    pose proof (length_skipn_cons size x l Hs) as L.
    simpl in Hn; lia.
Qed.

Lemma pieces_bounds size n (l : list A) :
  1 <= size ->
  Forall (fun c => 1 <= length c <= size) (pieces n size l).
Proof.
  intro Hs; revert l; induction n as [|n IH]; intro l; [constructor|].
  destruct l as [|x l]; [constructor|].
  simpl pieces. constructor; [|apply IH].
  rewrite length_firstn; simpl length; lia.
Qed.

Lemma pieces_nth size n (l : list A) k :
  1 <= size -> k < length (pieces n size l) ->
  nth k (pieces n size l) [] = slice (k * size) (k * size + size) l.
Proof.
  intro Hs; revert l k; induction n as [|n IH]; intros l k Hk;
    [simpl in Hk; lia|].
  destruct l as [|x l]; [simpl in Hk; lia|].
  simpl pieces in *. destruct k as [|k].
  - unfold slice; simpl. rewrite Nat.sub_0_r. reflexivity.
  - simpl in Hk. simpl nth. rewrite IH by lia.
    unfold slice. rewrite skipn_plus.
    replace (size + k * size) with (S k * size) by reflexivity.
    f_equal. lia.
Qed.

Lemma pieces_count size n (l : list A) :
  1 <= size -> length l <= n ->
  length l <= length (pieces n size l) * size
  /\ length (pieces n size l) * size < length l + size.
Proof.
  intro Hs; revert l; induction n as [|n IH]; intros l Hn.
  - destruct l; simpl in *; lia.
  - destruct l as [|x l]; [simpl; lia|].
    assert (L : length (skipn size (x :: l)) = S (length l) - size)
      by (rewrite length_skipn; reflexivity).
    destruct (IH (skipn size (x :: l))) as [H1 H2].
    { rewrite L; simpl in Hn; lia. }
    rewrite L in H1, H2. simpl in Hn.
    change (pieces (S n) size (x :: l))
      with (firstn size (x :: l) :: pieces n size (skipn size (x :: l))).
    change (length (x :: l)) with (S (length l)).
    destruct (Nat.le_gt_cases (S (length l)) size) as [Small | Large].
    + rewrite (skipn_all2 (n := size) (x :: l)) by exact Small.
      replace (pieces n size []) with (@nil (list A)) by (destruct n; reflexivity).
      simpl; lia.
    + set (c := length (pieces n size (skipn size (x :: l)))) in *.
      change (length (firstn size (x :: l)
                      :: pieces n size (skipn size (x :: l)))) with (S c).
      rewrite Nat.mul_succ_l. lia.
Qed.

(** X1.  With a size of at least 1 the loop of [chunk] ends (a fuel
    above the length of the array is enough, and more changes nothing);
    the chunks put together again are the array, and each of them has
    between 1 and [size] elements. *)
Theorem chunk_concat size fuel (arr : list A) :
  1 <= size -> length arr < fuel ->
  exists chunks,
    chunk fuel arr size = Some chunks
    /\ concat chunks = arr
    /\ Forall (fun c => 1 <= length c <= size) chunks.
Proof.
  intros Hs Hf. exists (pieces (length arr) size arr).
  split; [apply chunk_pieces; assumption|].
  split; [apply pieces_concat; lia | apply pieces_bounds; exact Hs].
Qed.

(** X2.  With a size of at least 1, chunk number [k] is
    [arr.slice(k * size, k * size + size)], and the number of chunks is
    the least [n] with [n * size] at least the length of the array. *)
Theorem chunk_slices size fuel (arr : list A) :
  1 <= size -> length arr < fuel ->
  exists chunks,
    chunk fuel arr size = Some chunks
    /\ (forall k, k < length chunks ->
          nth k chunks [] = slice (k * size) (k * size + size) arr)
    /\ length arr <= length chunks * size
    /\ length chunks * size < length arr + size.
Proof.
  intros Hs Hf. exists (pieces (length arr) size arr).
  split; [apply chunk_pieces; assumption|].
  split; [intros k Hk; apply pieces_nth; assumption|].
  apply pieces_count; lia.
Qed.

Lemma chunk_loop_zero fuel (arr : list A) out :
  arr <> [] -> chunk_loop fuel arr 0 0 out = None.
Proof.
  intro Hne; revert out; induction fuel as [|fuel IH]; intro out;
    [reflexivity|].
  simpl. destruct arr as [|x arr]; [congruence|].
  simpl. apply IH.
Qed.

(** X3.  With size 0 the loop never ends on a non-empty array: no fuel
    gives a result.  On the empty array the result is the empty list of
    chunks, whatever the size. *)
Theorem chunk_size_zero :
  (forall fuel (arr : list A), arr <> [] -> chunk fuel arr 0 = None)
  /\ (forall fuel size, chunk (S fuel) (@nil A) size = Some []).
Proof.
  split.
  - intros fuel arr Hne. apply chunk_loop_zero, Hne.
  - reflexivity.
Qed.

Lemma pieces_map {B} (f : A -> B) size n (l : list A) :
  pieces n size (map f l) = map (map f) (pieces n size l).
Proof.
  revert l; induction n as [|n IH]; intro l; [reflexivity|].
  destruct l as [|x l]; [reflexivity|].
  change (pieces (S n) size (map f (x :: l)))
    with (firstn size (map f (x :: l))
          :: pieces n size (skipn size (map f (x :: l)))).
  change (pieces (S n) size (x :: l))
    with (firstn size (x :: l) :: pieces n size (skipn size (x :: l))).
  rewrite firstn_map, skipn_map, IH. reflexivity.
Qed.

Lemma pieces_firstn size n (l : list A) k :
  1 <= size -> length l <= n ->
  concat (firstn k (pieces n size l)) = firstn (k * size) l.
Proof.
  intro Hs; revert n l; induction k as [|k IH]; intros n l Hn;
    [reflexivity|].
  destruct n as [|n].
  - destruct l; [|simpl in Hn; lia]. simpl. rewrite firstn_nil. reflexivity.
  - destruct l as [|x l]; [simpl; rewrite firstn_nil; reflexivity|].
    simpl pieces. simpl firstn at 1. simpl concat.
    pose proof (length_skipn_cons size x l Hs) as L.
    simpl in Hn. rewrite IH by lia.
    change (S k * size) with (size + k * size).
    rewrite firstn_plus. reflexivity.
Qed.

End ChunkFacts.

(* ================================================================== *)
(** ** [buildFlagRows] *)

Section FlagRowsFacts.

Local Open Scope nat_scope.

Variable table : list (jsstring * jsstring).
Hypothesis keys_distinct : NoDup (map fst table).

Lemma flag_pairs_In p :
  In p (flag_pairs table) ->
  In p table /\ str_truthy (fst p) = true /\ str_truthy (snd p) = true.
Proof.
  unfold flag_pairs; rewrite filter_In, andb_true_iff; tauto.
Qed.

Lemma row_of_pairs messageId ps :
  (forall p, In p ps -> In p (flag_pairs table)) ->
  row_of table messageId (map fst ps) = map (button_of messageId) ps.
Proof.
  induction ps as [|[flag lang] ps IH]; intro H; [reflexivity|].
  destruct (flag_pairs_In (flag, lang) (H _ (or_introl eq_refl)))
    as (T & _ & L).
  unfold row_of in *; simpl.
  rewrite (Map_get_NoDup flag lang table keys_distinct T).
  simpl in L; rewrite L; simpl.
  rewrite IH; [reflexivity|].
  intros p Hp; apply H; right; exact Hp.
Qed.

Lemma rows_loop_first_two messageId groups :
  Forall (fun g => 1 <= length (row_of table messageId g) <= 5) groups ->
  rows_loop table messageId groups []
  = map (row_of table messageId) (firstn 2 groups).
Proof.
  intro F.
  destruct groups as [|g1 [|g2 rest]]; [reflexivity| |].
  - inversion F as [|? ? [L1 L2] _]; subst.
    cbn [rows_loop firstn map].
    set (r1 := row_of table messageId g1) in *.
    apply Nat.leb_le in L1, L2. rewrite L1, L2. reflexivity.
  - inversion F as [|? ? [L1 L2] F']; subst.
    inversion F' as [|? ? [M1 M2] _]; subst.
    cbn [rows_loop firstn map].
    set (r1 := row_of table messageId g1) in *.
    set (r2 := row_of table messageId g2) in *.
    apply Nat.leb_le in L1, L2, M1, M2. rewrite L1, L2.
    cbn [andb app length Nat.eqb]. rewrite M1, M2. reflexivity.
Qed.

(** X4.  For a table with distinct keys, [buildFlagRows] returns at most
    two rows of one to five buttons each; read row after row, the buttons
    are those of the first ten pairs of the table that have a non-empty
    flag and language, in the order of the table: pairs beyond the tenth
    get no button. *)
Theorem buildFlagRows_first_ten messageId :
  exists rows,
    buildFlagRows_from table messageId = Some rows
    /\ length rows <= 2
    /\ Forall (fun row => 1 <= length row <= 5) rows
    /\ concat rows
       = map (button_of messageId) (firstn 10 (flag_pairs table)).
Proof.
  unfold buildFlagRows_from.
  set (pairs := flag_pairs table).
  destruct (map fst pairs) as [|f fs] eqn:E.
  - exists []. destruct pairs; [|discriminate E].
    repeat split; [simpl; lia | constructor].
  - rewrite <- E.
    rewrite chunk_pieces by lia.
    rewrite length_map, pieces_map.
    set (pcs := pieces (length pairs) 5 pairs).
    assert (Sub : forall ps, In ps pcs -> forall p, In p ps -> In p pairs).
    { intros ps Hps p Hp.
      rewrite <- (pieces_concat 5 (length pairs) pairs) by lia.
      apply in_concat; exists ps; split; assumption. }
    assert (B : Forall (fun c => 1 <= length c <= 5) pcs)
      by (apply pieces_bounds; lia).
    assert (R : forall ps, In ps pcs ->
                row_of table messageId (map fst ps)
                = map (button_of messageId) ps)
      by (intros ps Hps; apply row_of_pairs, Sub, Hps).
    rewrite rows_loop_first_two.
    2:{ apply Forall_forall; intros g Hg.
        apply in_map_iff in Hg; destruct Hg as (ps & <- & Hps).
        rewrite (R ps Hps), length_map.
        exact (proj1 (Forall_forall _ _) B ps Hps). }
    rewrite firstn_map, map_map.
    assert (In2 : forall ps, In ps (firstn 2 pcs) -> In ps pcs)
      by (intros ps Hps; rewrite <- (firstn_skipn 2 pcs);
          apply in_or_app; left; exact Hps).
    rewrite (map_ext_in _ (map (button_of messageId)) (firstn 2 pcs))
      by (intros ps Hps; apply R, In2, Hps).
    eexists; split; [reflexivity|].
    split; [rewrite length_map, length_firstn; lia|].
    split.
    + apply Forall_forall; intros row Hrow.
      apply in_map_iff in Hrow; destruct Hrow as (ps & <- & Hps).
      rewrite length_map.
      exact (proj1 (Forall_forall _ _) B ps (In2 ps Hps)).
    + rewrite <- concat_map. f_equal.
      unfold pcs. rewrite pieces_firstn by lia. reflexivity.
Qed.

End FlagRowsFacts.

(* ================================================================== *)
(** ** Custom ids *)

Section CustomIdFacts.

Lemma split_cons_sep sep s : split sep (sep :: s) = [] :: split sep s.
Proof. simpl; rewrite N.eqb_refl; reflexivity. Qed.

Lemma split_nonempty sep s : split sep s <> [].
Proof.
  destruct s as [|c s]; simpl; [discriminate|].
  destruct (c =? sep); [discriminate|].
  destruct (split sep s); discriminate.
Qed.

Lemma split_app sep a b :
  ~ In sep a -> split sep (a ++ sep :: b) = a :: split sep b.
Proof.
  induction a as [|c a IH]; intro H; [apply split_cons_sep|].
  simpl. destruct (c =? sep) eqn:E.
  - apply N.eqb_eq in E; subst c. exfalso; apply H; left; reflexivity.
  - rewrite IH; [reflexivity|]. intro K; apply H; right; exact K.
Qed.

Lemma split_none sep a : ~ In sep a -> split sep a = [a].
Proof.
  induction a as [|c a IH]; intro H; [reflexivity|].
  simpl. destruct (c =? sep) eqn:E.
  - apply N.eqb_eq in E; subst c. exfalso; apply H; left; reflexivity.
  - rewrite IH; [reflexivity|]. intro K; apply H; right; exact K.
Qed.

Lemma split_first sep s :
  nth_error (split sep s) 0 = Some (split_head sep s).
Proof.
  induction s as [|c s IH]; [reflexivity|].
  simpl. destruct (c =? sep); [reflexivity|].
  destruct (split sep s) as [|h t]; [discriminate IH|].
  simpl in IH; injection IH as ->; reflexivity.
Qed.

Lemma split_head_all sep s : ~ In sep s -> split_head sep s = s.
Proof.
  induction s as [|c s IH]; intro H; [reflexivity|].
  simpl. destruct (c =? sep) eqn:E.
  - apply N.eqb_eq in E; subst c. exfalso; apply H; left; reflexivity.
  - rewrite IH; [reflexivity|]. intro K; apply H; right; exact K.
Qed.

Lemma split_head_no_sep sep s : ~ In sep (split_head sep s).
Proof.
  induction s as [|c s IH]; simpl; [tauto|].
  destruct (c =? sep) eqn:E; [simpl; tauto|].
  apply N.eqb_neq in E. simpl; intros [H | H]; [exact (E H) | exact (IH H)].
Qed.

Lemma split_head_decompose sep s :
  In sep s -> exists tail, s = split_head sep s ++ sep :: tail.
Proof.
  induction s as [|c s IH]; simpl; [tauto|].
  destruct (c =? sep) eqn:E.
  - apply N.eqb_eq in E; subst c. intros _; exists s; reflexivity.
  - apply N.eqb_neq in E. intros [H | H]; [destruct (E H)|].
    destruct (IH H) as [tail Ht]. exists tail; simpl; f_equal; exact Ht.
Qed.

(** The second part of [s.split(sep)] is missing exactly when [s] has no
    [sep]. *)
Lemma split_second_missing sep s :
  nth_error (split sep s) 1 = None <-> ~ In sep s.
Proof.
  split.
  - intros H K. destruct (split_head_decompose sep s K) as [tail Ht].
    rewrite Ht, split_app in H by apply split_head_no_sep.
    simpl in H. pose proof (split_nonempty sep tail) as NE.
    destruct (split sep tail); [congruence | discriminate H].
  - intro H. rewrite (split_none sep s H). reflexivity.
Qed.

Lemma parts_1_2 (a b : jsstring) (x : list jsstring) :
  (nth_error (a :: b :: x) 1, nth_error (a :: b :: x) 2)
  = (Some b, nth_error x 0).
Proof. reflexivity. Qed.

Lemma parts_1_2_short (a : jsstring) (x : list jsstring) :
  (nth_error (a :: x) 1, nth_error (a :: x) 2)
  = (nth_error x 0, nth_error x 1).
Proof. reflexivity. Qed.

Lemma parse_customId_of lang messageId :
  ~ In 58 lang ->
  parse_customId (customId_of lang messageId)
  = Some (Some lang, Some (split_head 58 messageId)).
Proof.
  intro H. unfold parse_customId, customId_of.
  change (lit "tr:" ++ lang ++ 58 :: messageId)
    with (116 :: 114 :: 58 :: lang ++ 58 :: messageId).
  change (starts_with (lit "tr:") (116 :: 114 :: 58 :: lang ++ 58 :: messageId))
    with true.
  cbv iota.
  change (116 :: 114 :: 58 :: lang ++ 58 :: messageId)
    with ([116; 114] ++ 58 :: (lang ++ 58 :: messageId)).
  rewrite split_app by (simpl; intuition discriminate).
  rewrite (split_app 58 lang messageId H).
  rewrite parts_1_2, split_first. reflexivity.
Qed.

(** X5.  A custom id built from a language without [':'] and a message
    id is read back by the click handler as that language and the message
    id up to its first [':']: the message id itself when it has none. *)
Theorem customId_round_trip lang messageId :
  ~ In 58 lang ->
  parse_customId (customId_of lang messageId)
  = Some (Some lang, Some (split_head 58 messageId))
  /\ (~ In 58 messageId ->
      parse_customId (customId_of lang messageId)
      = Some (Some lang, Some messageId)).
Proof.
  intro H. split; [apply parse_customId_of, H|].
  intro K. rewrite (parse_customId_of _ _ H), (split_head_all _ _ K).
  reflexivity.
Qed.

Lemma starts_with_app p s :
  starts_with p s = true -> exists rest, s = p ++ rest.
Proof.
  revert s; induction p as [|x p IH]; intros s H.
  - exists s; reflexivity.
  - destruct s as [|y s]; [discriminate H|].
    simpl in H. apply andb_true_iff in H; destruct H as [E H].
    apply N.eqb_eq in E; subst y.
    destruct (IH s H) as [rest ->]. exists rest; reflexivity.
Qed.

(** X6.  The click handler goes on only with a custom id that starts
    with ["tr:"].  The language it reads is then never [undefined]: it is
    what stands between that prefix and the next [':'], possibly the
    empty string.  The message id it reads is [undefined] exactly when
    there is no further [':']. *)
Theorem parse_customId_parts custom l m :
  parse_customId custom = Some (l, m) ->
  exists rest,
    custom = lit "tr:" ++ rest
    /\ l = Some (split_head 58 rest)
    /\ (m = None <-> ~ In 58 rest).
Proof.
  unfold parse_customId.
  destruct (starts_with (lit "tr:") custom) eqn:E; [|discriminate].
  destruct (starts_with_app _ _ E) as [rest ->].
  change (lit "tr:" ++ rest) with ([116; 114] ++ 58 :: rest).
  rewrite split_app by (simpl; intuition discriminate).
  rewrite parts_1_2_short, split_first.
  intro H; injection H as <- <-.
  exists rest. repeat split; try reflexivity; apply split_second_missing.
Qed.

(** X7.  Whatever the message id without [':'], every button that
    [buildFlagRows] makes from the program's table carries a flag of the
    table as its label and is read back by the click handler as the
    language of that flag and that message id. *)
Theorem buttons_are_read_back messageId rows b :
  ~ In 58 messageId ->
  buildFlagRows messageId = Some rows ->
  In b (concat rows) ->
  exists lang,
    In (label b, lang) FLAG_TO_LANG
    /\ parse_customId (customId b) = Some (Some lang, Some messageId).
Proof.
  intros K B H.
  vm_compute in B. injection B as <-.
  simpl in H.
  repeat (destruct H as [H | H];
          [subst b; cbn [customId label]; eexists; split;
           [unfold FLAG_TO_LANG; simpl;
            repeat (try (left; reflexivity); right)
           |match goal with
            | |- _ = Some (Some ?l, _) =>
                refine (eq_trans (parse_customId_of l messageId _) _);
                [vm_compute; intuition discriminate
                |rewrite (split_head_all 58 messageId K); reflexivity]
            end]|]).
  contradiction.
Qed.

End CustomIdFacts.

(* ================================================================== *)
(** ** [trim], the pool entries and the allowed channels *)

Section TrimFacts.

Lemma trimStart_clean s : starts_clean (trimStart s).
Proof.
  induction s as [|c s IH]; simpl; [exact I|].
  destruct (is_white_space c) eqn:E; [exact IH | exact E].
Qed.

Lemma trimStart_fix s : starts_clean s -> trimStart s = s.
Proof.
  destruct s as [|c s]; simpl; [reflexivity|]. intros ->; reflexivity.
Qed.

Lemma trimStart_snoc s c :
  is_white_space c = false -> trimStart (s ++ [c]) = trimStart s ++ [c].
Proof.
  intro H; induction s as [|d s IH]; simpl; [rewrite H; reflexivity|].
  destruct (is_white_space d); [exact IH | reflexivity].
Qed.

Lemma trimStart_decompose s :
  exists a, s = a ++ trimStart s /\ all_white a.
Proof.
  induction s as [|c s (a & E & W)]; simpl.
  - exists []; split; [reflexivity | constructor].
  - destruct (is_white_space c) eqn:K.
    + exists (c :: a); split; [simpl; f_equal; exact E|].
      constructor; assumption.
    + exists []; split; [reflexivity | constructor].
Qed.

Lemma trimEnd_cons c s :
  is_white_space c = false -> trimEnd (c :: s) = c :: trimEnd s.
Proof.
  intro H; unfold trimEnd; simpl.
  rewrite (trimStart_snoc _ _ H), rev_app_distr; reflexivity.
Qed.

Lemma trimEnd_starts_clean s : starts_clean s -> starts_clean (trimEnd s).
Proof.
  destruct s as [|c s]; [intros _; exact I|].
  simpl; intro H; rewrite (trimEnd_cons _ _ H); exact H.
Qed.

Lemma trimEnd_ends_clean s : ends_clean (trimEnd s).
Proof.
  unfold ends_clean, trimEnd; rewrite rev_involutive; apply trimStart_clean.
Qed.

Lemma trimEnd_fix s : ends_clean s -> trimEnd s = s.
Proof.
  unfold ends_clean, trimEnd; intro H.
  rewrite (trimStart_fix _ H); apply rev_involutive.
Qed.

Lemma trimEnd_decompose s :
  exists b, s = trimEnd s ++ b /\ all_white b.
Proof.
  destruct (trimStart_decompose (rev s)) as (a & E & W).
  exists (rev a); split; [|apply Forall_rev; exact W].
  unfold trimEnd. rewrite <- rev_app_distr, <- E. symmetry; apply rev_involutive.
Qed.

Lemma trim_clean s : starts_clean (trim s) /\ ends_clean (trim s).
Proof.
  unfold trim; split;
    [apply trimEnd_starts_clean, trimStart_clean | apply trimEnd_ends_clean].
Qed.

Lemma trim_fix s : starts_clean s -> ends_clean s -> trim s = s.
Proof.
  intros H K; unfold trim.
  rewrite (trimStart_fix _ H); apply trimEnd_fix, K.
Qed.

Lemma trim_idempotent s : trim (trim s) = trim s.
Proof. destruct (trim_clean s); apply trim_fix; assumption. Qed.

Lemma trim_decompose s :
  exists a b, s = a ++ trim s ++ b /\ all_white a /\ all_white b.
Proof.
  destruct (trimStart_decompose s) as (a & E & W).
  destruct (trimEnd_decompose (trimStart s)) as (b & E' & W').
  exists a, b; repeat split; [|exact W | exact W'].
  unfold trim; rewrite <- E'; exact E.
Qed.

Lemma trim_In c s : In c (trim s) -> In c s.
Proof.
  destruct (trim_decompose s) as (a & b & E & _).
  intro H; rewrite E; apply in_or_app; right; apply in_or_app; left; exact H.
Qed.

(** [trim] takes whitespace away from both ends and nothing else:
    the string is a run of whitespace, the trimmed string, and a run of
    whitespace; the trimmed string neither starts nor ends with
    whitespace, and trimming it again changes nothing. *)
Lemma trim_spec s :
  (exists a b, s = a ++ trim s ++ b /\ all_white a /\ all_white b)
  /\ starts_clean (trim s)
  /\ ends_clean (trim s)
  /\ trim (trim s) = trim s.
Proof.
  split; [apply trim_decompose|].
  destruct (trim_clean s) as [H K].
  repeat split; [exact H | exact K | apply trim_idempotent].
Qed.

Lemma split_no_sep sep s : Forall (fun p => ~ In sep p) (split sep s).
Proof.
  induction s as [|c s IH]; simpl.
  - constructor; [simpl; tauto | constructor].
  - destruct (c =? sep) eqn:E.
    + constructor; [simpl; tauto | exact IH].
    + apply N.eqb_neq in E.
      destruct (split sep s) as [|h t]; [constructor; [|constructor]|].
      * simpl; intuition.
      * inversion IH as [|? ? Hh Ht]; subst.
        constructor; [|exact Ht].
        simpl; intros [H | H]; [exact (E H) | exact (Hh H)].
Qed.

(** The entries of a comma-separated setting, as both settings are
    read: trimmed parts, the empty ones dropped. *)
Lemma entries_In setting e :
  In e (filter str_truthy (map trim (split 44 setting)))
  <-> e <> [] /\ exists part, In part (split 44 setting) /\ trim part = e.
Proof.
  rewrite filter_In, in_map_iff, str_truthy_nonempty.
  split.
  - intros [(part & E & P) K]; split; [exact K|]. exists part; tauto.
  - intros [K (part & P & E)]; split; [|exact K]. exists part; tauto.
Qed.

Lemma entries_clean setting e :
  In e (filter str_truthy (map trim (split 44 setting))) ->
  e <> [] /\ trim e = e /\ ~ In 44 e.
Proof.
  intro H; apply entries_In in H; destruct H as (NE & part & P & <-).
  split; [exact NE|]. split; [apply trim_idempotent|].
  intro K; apply trim_In in K.
  exact (proj1 (Forall_forall _ _) (split_no_sep 44 setting) part P K).
Qed.

End TrimFacts.

Section PoolEntries.

Context {RT : Runtime} {PR : Process} {NW : Network}.

(** X8.  Whatever [LIBRETRANSLATE_URLS] holds, the pool that
    [translateLibre] goes through is not empty, and each of its endpoints
    is a non-empty string without surrounding whitespace and without a
    comma; an endpoint that is not the built-in default is a trimmed part
    of the setting. *)
Theorem libre_list_entries :
  libre_list <> []
  /\ Forall (fun e => e <> [] /\ trim e = e /\ ~ In 44 e) libre_list
  /\ (forall e, In e libre_list ->
        e = lit "https://libretranslate.de"
        \/ exists part, In part (split 44 LIBRETRANSLATE_URLS) /\ trim part = e).
Proof.
  split; [apply libre_list_nonempty|].
  unfold libre_list, LIBRE_ENDPOINTS.
  destruct (filter str_truthy (map trim (split 44 LIBRETRANSLATE_URLS)))
    as [|e0 es] eqn:E.
  - split.
    + constructor; [|constructor].
      split; [discriminate|]. split; [reflexivity|].
      vm_compute; intuition discriminate.
    + intros e [<- | []]; left; reflexivity.
  - rewrite <- E. split.
    + apply Forall_forall; intros e H; exact (entries_clean _ _ H).
    + intros e H; right. apply entries_In in H. tauto.
Qed.

End PoolEntries.

Section AllowlistFacts.

Context {CH : Channels}.

(** X9.  With [ALLOWED_CHANNELS] unset, empty or made of blanks and
    commas only, every channel is allowed, a missing one too.  Otherwise
    a channel is allowed exactly when its id is non-empty and is a part of
    the comma-separated setting with the surrounding whitespace taken
    off; a missing channel is refused. *)
Theorem isAllowedChannel_spec :
  (CHANNEL_ALLOWLIST = []
   <-> Forall (fun part => trim part = []) (split 44 ALLOWED_CHANNELS))
  /\ (CHANNEL_ALLOWLIST = [] -> forall channel, isAllowedChannel channel = true)
  /\ (CHANNEL_ALLOWLIST <> [] ->
      isAllowedChannel None = false
      /\ forall id,
           isAllowedChannel (Some id) = true
           <-> id <> []
               /\ exists part,
                    In part (split 44 ALLOWED_CHANNELS) /\ trim part = id).
Proof.
  split; [|split].
  - unfold CHANNEL_ALLOWLIST. split.
    + intro E. apply Forall_forall; intros part P.
      destruct (trim part) as [|c t] eqn:T; [reflexivity|].
      assert (K : In (c :: t)
                    (filter str_truthy (map trim (split 44 ALLOWED_CHANNELS)))).
      { apply entries_In; split; [discriminate|]. exists part; tauto. }
      rewrite E in K; destruct K.
    + intro F.
      destruct (filter str_truthy (map trim (split 44 ALLOWED_CHANNELS)))
        as [|e es] eqn:E; [reflexivity|].
      assert (K : In e (filter str_truthy
                          (map trim (split 44 ALLOWED_CHANNELS))))
        by (rewrite E; left; reflexivity).
      apply entries_In in K; destruct K as (NE & part & P & T).
      rewrite (proj1 (Forall_forall _ _) F part P) in T. congruence.
  - intros E channel; unfold isAllowedChannel; rewrite E; reflexivity.
  - intro NE; unfold isAllowedChannel.
    destruct CHANNEL_ALLOWLIST as [|e es] eqn:E; [congruence|].
    split; [reflexivity|].
    intro id. rewrite <- E, Set_has_In. unfold CHANNEL_ALLOWLIST.
    apply entries_In.
Qed.

End AllowlistFacts.

(* ================================================================== *)
(** ** Request URLs *)

Section SlashFacts.

Context {RT : Runtime}.

Lemma drop_slashes_repeat n s : drop_slashes (repeat 47 n ++ s) = drop_slashes s.
Proof. induction n as [|n IH]; [reflexivity | exact IH]. Qed.

Lemma drop_slashes_decompose s :
  exists n, s = repeat 47 n ++ drop_slashes s.
Proof.
  induction s as [|c s [n E]]; [exists 0%nat; reflexivity|].
  simpl. destruct (c =? 47) eqn:K.
  - apply N.eqb_eq in K; subst c. exists (S n); simpl; f_equal; exact E.
  - exists 0%nat; reflexivity.
Qed.

Lemma drop_slashes_head s c t : drop_slashes s = c :: t -> c <> 47.
Proof.
  induction s as [|d s IH]; simpl; [discriminate|].
  destruct (d =? 47) eqn:K; [exact IH|].
  intro H; injection H as <- _. apply N.eqb_neq, K.
Qed.

Lemma rev_repeat_same (x : N) n : rev (repeat x n) = repeat x n.
Proof.
  induction n as [|n IH]; [reflexivity|].
  simpl; rewrite IH. symmetry; apply repeat_cons.
Qed.

Lemma strip_trailing_slashes_repeat s n :
  strip_trailing_slashes (s ++ repeat 47 n) = strip_trailing_slashes s.
Proof.
  unfold strip_trailing_slashes.
  rewrite rev_app_distr, rev_repeat_same, drop_slashes_repeat; reflexivity.
Qed.

(** X10.  The URL a pool endpoint is asked at is the base URL without its
    trailing slashes, followed by ["/translate"]: what is cut off is
    slashes only, what is left does not end with a slash, and base URLs
    that differ only in trailing slashes are sent the same request. *)
Theorem libre_request_slashes baseUrl text to :
  req_url (libre_request baseUrl text to)
  = strip_trailing_slashes baseUrl ++ lit "/translate"
  /\ (exists n, baseUrl = strip_trailing_slashes baseUrl ++ repeat 47 n)
  /\ (forall front, strip_trailing_slashes baseUrl <> front ++ [47])
  /\ (forall n,
        libre_request (baseUrl ++ repeat 47 n) text to
        = libre_request baseUrl text to).
Proof.
  split; [reflexivity|]. split; [|split].
  - destruct (drop_slashes_decompose (rev baseUrl)) as [n E].
    exists n. unfold strip_trailing_slashes.
    rewrite <- (rev_repeat_same 47 n), <- rev_app_distr, <- E.
    symmetry; apply rev_involutive.
  - intros front H. unfold strip_trailing_slashes in H.
    apply (f_equal (@rev N)) in H.
    rewrite rev_involutive, rev_app_distr in H; simpl in H.
    exact (drop_slashes_head _ _ _ H eq_refl).
  - intro n. unfold libre_request.
    rewrite strip_trailing_slashes_repeat; reflexivity.
Qed.

End SlashFacts.

Section EncodeFacts.

Lemma hex_digit_safe d : d < 16 -> uri_unreserved (hex_digit d) = true.
Proof.
  intro H.
  assert (K : d = 0 \/ d = 1 \/ d = 2 \/ d = 3 \/ d = 4 \/ d = 5 \/ d = 6
              \/ d = 7 \/ d = 8 \/ d = 9 \/ d = 10 \/ d = 11 \/ d = 12
              \/ d = 13 \/ d = 14 \/ d = 15) by lia.
  repeat (destruct K as [-> | K]; [reflexivity|]). subst d; reflexivity.
Qed.

Lemma percent_safe o :
  o < 256 -> Forall (fun c => uri_safe c = true) (percent o).
Proof.
  intro H. unfold percent, uri_safe.
  assert (o / 16 < 16) by (apply N.Div0.div_lt_upper_bound; lia).
  assert (o mod 16 < 16) by (apply N.mod_lt; lia).
  repeat constructor; rewrite ?hex_digit_safe by assumption; reflexivity.
Qed.

Lemma utf8_octets v : v < 1114112 -> Forall (fun o => o < 256) (utf8 v).
Proof.
  intro H. unfold utf8.
  assert (M : forall a, a mod 64 < 64) by (intro a; apply N.mod_lt; lia).
  destruct (N.ltb_spec v 128); [repeat constructor; lia|].
  destruct (N.ltb_spec v 2048).
  { assert (v / 64 < 32) by (apply N.Div0.div_lt_upper_bound; lia).
    pose proof (M v). repeat constructor; lia. }
  destruct (N.ltb_spec v 65536).
  { assert (v / 4096 < 16) by (apply N.Div0.div_lt_upper_bound; lia).
    pose proof (M v). pose proof (M (v / 64)). repeat constructor; lia. }
  assert (v / 262144 < 5) by (apply N.Div0.div_lt_upper_bound; lia).
  pose proof (M v). pose proof (M (v / 64)). pose proof (M (v / 4096)).
  repeat constructor; lia.
Qed.

Lemma escape_safe v :
  v < 1114112 -> Forall (fun c => uri_safe c = true) (escape v).
Proof.
  intro H. unfold escape.
  pose proof (utf8_octets v H) as O.
  induction O as [|o os Ho _ IH]; [constructor|].
  change (concat (map percent (o :: os)))
    with (percent o ++ concat (map percent os)).
  apply Forall_app; split; [apply percent_safe, Ho | exact IH].
Qed.

Lemma encodeURIComponent_safe_aux s :
  (Forall (fun c => c < 65536) s ->
   forall out, encodeURIComponent s = Some out ->
               Forall (fun c => uri_safe c = true) out)
  /\ (forall c0, Forall (fun c => c < 65536) (c0 :: s) ->
      forall out, encodeURIComponent (c0 :: s) = Some out ->
                  Forall (fun c => uri_safe c = true) out).
Proof.
  induction s as [|a s [IH1 IH2]].
  - split.
    + intros _ out H; injection H as <-; constructor.
    + intros c0 B out. inversion B as [|? ? Bc _]; subst. simpl.
      destruct (uri_unreserved c0) eqn:U.
      * intro H; injection H as <-.
        constructor; [unfold uri_safe; rewrite U; reflexivity | constructor].
      * destruct (is_low_surrogate c0); [discriminate|].
        destruct (is_high_surrogate c0); [discriminate|].
        intro H; injection H as <-. rewrite app_nil_r.
        apply escape_safe; lia.
  - split; [exact (IH2 a)|].
    intros c0 B out. inversion B as [|? ? Bc B']; subst.
    change (encodeURIComponent (c0 :: a :: s))
      with (if uri_unreserved c0
            then option_map (cons c0) (encodeURIComponent (a :: s))
            else if is_low_surrogate c0 then None
            else if is_high_surrogate c0 then
              if is_low_surrogate a then
                option_map
                  (app (escape ((c0 - 55296) * 1024 + (a - 56320) + 65536)))
                  (encodeURIComponent s)
              else None
            else option_map (app (escape c0)) (encodeURIComponent (a :: s))).
    destruct (uri_unreserved c0) eqn:U.
    + destruct (encodeURIComponent (a :: s)) as [o|] eqn:E; [|discriminate].
      intro H; injection H as <-.
      constructor; [unfold uri_safe; rewrite U; reflexivity|].
      exact (IH2 a B' o E).
    + destruct (is_low_surrogate c0); [discriminate|].
      destruct (is_high_surrogate c0) eqn:Hi.
      * destruct (is_low_surrogate a) eqn:Lo; [|discriminate].
        destruct (encodeURIComponent s) as [o|] eqn:E; [|discriminate].
        intro H; injection H as <-.
        apply Forall_app; split.
        -- apply escape_safe.
           unfold is_high_surrogate, is_low_surrogate in Hi, Lo.
           apply andb_true_iff in Hi, Lo.
           rewrite !N.leb_le in Hi, Lo. lia.
        -- inversion B' as [|? ? _ B'']; subst. exact (IH1 B'' o eq_refl).
      * destruct (encodeURIComponent (a :: s)) as [o|] eqn:E; [|discriminate].
        intro H; injection H as <-.
        apply Forall_app; split; [apply escape_safe; lia|].
        exact (IH2 a B' o E).
Qed.

Lemma encodeURIComponent_safe s out :
  Forall (fun c => c < 65536) s ->
  encodeURIComponent s = Some out ->
  Forall (fun c => uri_safe c = true) out.
Proof.
  intros B H; exact (proj1 (encodeURIComponent_safe_aux s) B out H).
Qed.

Lemma encodeURIComponent_no_surrogate s :
  Forall (fun c => is_surrogate c = false) s ->
  exists out, encodeURIComponent s = Some out.
Proof.
  induction 1 as [|c s Hc _ [out IH]]; [exists []; reflexivity|].
  unfold is_surrogate in Hc; apply orb_false_iff in Hc; destruct Hc as [Hi Lo].
  simpl. rewrite Hi, Lo, IH.
  destruct (uri_unreserved c); eexists; reflexivity.
Qed.

Lemma encodeURIComponent_unreserved s :
  Forall (fun c => uri_unreserved c = true) s ->
  encodeURIComponent s = Some s.
Proof.
  induction 1 as [|c s Hc _ IH]; [reflexivity|].
  simpl. rewrite Hc, IH. reflexivity.
Qed.

(** X11.  What [encodeURIComponent] makes of a string of code units is
    made of unreserved characters and ['%'] only, so neither the text nor
    the base code can put a ['&'], ['='], ['#'], ['?'], ['/'] or a space
    into the URL of the Last-Resort request: the URL is the fixed prefix,
    the encoded base code, ["&dt=t&q="] and the encoded text.  A string of
    unreserved characters is left as it is. *)
Theorem google_url_is_safe text to url :
  Forall (fun c => c < 65536) text ->
  Forall (fun c => c < 65536) to ->
  google_url text to = Some url ->
  (exists tl q,
     encodeURIComponent to = Some tl
     /\ encodeURIComponent text = Some q
     /\ url = lit "https://translate.googleapis.com/translate_a/single"
              ++ lit "?client=gtx&sl=auto&tl=" ++ tl ++ lit "&dt=t&q=" ++ q
     /\ Forall (fun c => uri_safe c = true) tl
     /\ Forall (fun c => uri_safe c = true) q)
  /\ (forall c, uri_safe c = true ->
        c <> 38 /\ c <> 61 /\ c <> 35 /\ c <> 63 /\ c <> 47 /\ c <> 32)
  /\ (forall s, Forall (fun c => uri_unreserved c = true) s ->
        encodeURIComponent s = Some s).
Proof.
  intros Bt Bo H. unfold google_url in H.
  destruct (encodeURIComponent to) as [tl|] eqn:Eo; [|discriminate].
  destruct (encodeURIComponent text) as [q|] eqn:Et; [|discriminate].
  injection H as <-.
  split; [|split].
  - exists tl, q. repeat split.
    + exact (encodeURIComponent_safe _ _ Bo Eo).
    + exact (encodeURIComponent_safe _ _ Bt Et).
  - intros c Hc. repeat split; intros ->; discriminate Hc.
  - apply encodeURIComponent_unreserved.
Qed.

End EncodeFacts.

(* ================================================================== *)
(** ** More about the orchestrator *)

Section OrchestratorMore.

Context {RT : Runtime} {PR : Process} {NW : Network}.

Lemma requests_app t1 t2 : requests (t1 ++ t2) = requests t1 ++ requests t2.
Proof.
  induction t1 as [|[c|r|x] t1 IH]; simpl; rewrite ?IH; reflexivity.
Qed.

Lemma all_failed_requests text to bs w es w' t :
  all_failed text to bs w es w' t ->
  requests t = map (fun b => libre_request b text to) bs.
Proof.
  induction 1 as [|b bs w e w1 t1 es w2 t2 H _ IH]; [reflexivity|].
  pose proof (translateLibreAt_trace b text to w) as T.
  rewrite H in T; simpl in T; subst t1.
  simpl; rewrite IH; reflexivity.
Qed.

(** X12.  The Last-Resort adapter makes one request, or none: none
    exactly when the text or the base code cannot be URI-encoded, and then
    it throws [URIError] and leaves the world as it was.  A text and a base
    code without surrogate code units can always be encoded. *)
Theorem translateGooglePublic_requests text to w :
  (google_url text to = None ->
   translateGooglePublic text to w
   = (Thrown URIError_malformed, w, [Enter (CallGoogle text to)]))
  /\ (forall url,
        google_url text to = Some url ->
        trace_of (translateGooglePublic text to w)
        = [Enter (CallGoogle text to); Fetch (google_request url)])
  /\ (Forall (fun c => is_surrogate c = false) text ->
      Forall (fun c => is_surrogate c = false) to ->
      exists url, google_url text to = Some url).
Proof.
  rewrite translateGooglePublic_run. split; [|split].
  - intros ->; reflexivity.
  - intros url ->; reflexivity.
  - intros Ht Ho. unfold google_url.
    destruct (encodeURIComponent_no_surrogate _ Ho) as [tl ->].
    destruct (encodeURIComponent_no_surrogate _ Ht) as [q ->].
    eexists; reflexivity.
Qed.

(** The calls and requests of the second and third [try]. *)
Lemma libre_then_google_shape text base w :
  exists k (g : bool),
    (k <= length libre_list)%nat
    /\ entered (trace_of (libre_then_google text base w))
       = CallLibre text base
         :: map (fun b => CallLibreAt b text base) (firstn k libre_list)
         ++ (if g then [CallGoogle text base] else [])
    /\ exists gr,
         requests (trace_of (libre_then_google text base w))
         = map (fun b => libre_request b text base) (firstn k libre_list) ++ gr
         /\ (gr = []
             \/ exists url, google_url text base = Some url
                            /\ gr = [google_request url]).
Proof.
  rewrite libre_then_google_unfold, translateLibre_unfold.
  pose proof (translateLibre_loop_spec text base libre_list None w) as S.
  destruct (translateLibre_loop libre_list text base None w)
    as [[[v|e] w1] t1]; unfold after, result_of, world_of, trace_of; simpl.
  - destruct S as (bs & b & rest & es & w2 & t2 & t3 & L & AF & R & ->).
    pose proof (translateLibreAt_trace b text base w2) as T.
    rewrite R in T; simpl in T; subst t3.
    exists (length (bs ++ [b])), false.
    assert (F : firstn (length (bs ++ [b])) libre_list = bs ++ [b]).
    { replace libre_list with ((bs ++ [b]) ++ rest)
        by (rewrite L, <- app_assoc; reflexivity).
      rewrite firstn_app, firstn_all, Nat.sub_diag, firstn_O, app_nil_r.
      reflexivity. }
    rewrite F. split.
    { rewrite L, !length_app; simpl; lia. }
    split.
    + rewrite entered_app, (all_failed_entered _ _ _ _ _ _ _ AF), map_app,
        app_nil_r. reflexivity.
    + exists []. split; [|left; reflexivity].
      rewrite requests_app, (all_failed_requests _ _ _ _ _ _ _ AF), map_app,
        app_nil_r. reflexivity.
  - destruct S as (es & AF & _).
    rewrite google_or_original_unfold, translateGooglePublic_run.
    exists (length libre_list), true. rewrite firstn_all.
    split; [lia|].
    assert (Ent : forall t, entered ((t1 ++ [Warn (WarnLibre e)]) ++ t)
                            = map (fun b => CallLibreAt b text base) libre_list
                              ++ entered t).
    { intro t. rewrite !entered_app, (all_failed_entered _ _ _ _ _ _ _ AF).
      simpl. rewrite app_nil_r. reflexivity. }
    assert (Req : forall t, requests ((t1 ++ [Warn (WarnLibre e)]) ++ t)
                            = map (fun b => libre_request b text base) libre_list
                              ++ requests t).
    { intro t. rewrite !requests_app, (all_failed_requests _ _ _ _ _ _ _ AF).
      simpl. rewrite app_nil_r. reflexivity. }
    destruct (google_url text base) as [url|] eqn:U.
    + destruct (google_answer text (fst (net (google_request url) w1)))
        as [v|e']; cbn [fst snd]; rewrite Ent, Req; simpl.
      * split; [reflexivity|]. eexists; split; [reflexivity|].
        right; exists url; split; reflexivity.
      * split; [reflexivity|]. eexists; split; [reflexivity|].
        right; exists url; split; reflexivity.
    + cbn [fst snd]; rewrite Ent, Req; simpl.
      split; [reflexivity|]. exists []. split; [reflexivity | left; reflexivity].
Qed.

(** The calls and requests of a whole run. *)
Lemma smartTranslate_shape original target w :
  exists k (g : bool) gr lower,
    (k <= length libre_list)%nat
    /\ entered (trace_of (smartTranslate original target w))
       = (if deepl_eligible target
          then [CallDeepL (preProcessText original) target] else [])
         ++ lower
    /\ (lower = []
        \/ lower
           = CallLibre (preProcessText original) (targetBase_of target)
             :: map (fun b => CallLibreAt b (preProcessText original)
                                (targetBase_of target))
                  (firstn k libre_list)
             ++ (if g then [CallGoogle (preProcessText original)
                              (targetBase_of target)] else []))
    /\ requests (trace_of (smartTranslate original target w))
       = (if deepl_eligible target
          then [deepl_request (preProcessText original) target] else [])
         ++ map (fun b => libre_request b (preProcessText original)
                            (targetBase_of target))
              (firstn k libre_list)
         ++ gr
    /\ (gr = []
        \/ exists url,
             google_url (preProcessText original) (targetBase_of target)
             = Some url
             /\ gr = [google_request url]).
Proof.
  rewrite smartTranslate_unfold.
  destruct (deepl_eligible target).
  - rewrite translateDeepL_run.
    destruct (deepl_answer _ _) as [v|e]; unfold after, trace_of; simpl.
    + exists 0%nat, false, [], []. repeat split; try (left; reflexivity).
      apply Nat.le_0_l.
    + destruct (libre_then_google_shape (preProcessText original)
                  (targetBase_of target)
                  (snd (net (deepl_request (preProcessText original) target) w)))
        as (k & g & K & E & gr & R & G).
      unfold trace_of in E, R.
      exists k, g, gr; eexists.
      split; [exact K|]. rewrite E, R.
      split; [reflexivity|]. split; [right; reflexivity|].
      split; [reflexivity | exact G].
  - destruct (libre_then_google_shape (preProcessText original)
                (targetBase_of target) w) as (k & g & K & E & gr & R & G).
    exists k, g, gr; eexists.
    split; [exact K|]. rewrite E, R.
    split; [reflexivity|]. split; [right; reflexivity|].
    split; [reflexivity | exact G].
Qed.

(** X13.  The requests of a run of [smartTranslate] are, in this order:
    the Primary's request when the Primary is eligible; requests to an
    initial part of the pool, in the order of the pool; at most one
    Last-Resort request.  So a run makes at most as many requests as the
    pool has endpoints, plus two. *)
Theorem smartTranslate_requests original target w :
  (exists k gr,
     (k <= length libre_list)%nat
     /\ requests (trace_of (smartTranslate original target w))
        = (if deepl_eligible target
           then [deepl_request (preProcessText original) target] else [])
          ++ map (fun b => libre_request b (preProcessText original)
                             (targetBase_of target))
               (firstn k libre_list)
          ++ gr
     /\ (gr = []
         \/ exists url,
              google_url (preProcessText original) (targetBase_of target)
              = Some url
              /\ gr = [google_request url]))
  /\ (length (requests (trace_of (smartTranslate original target w)))
      <= length libre_list + 2)%nat.
Proof.
  destruct (smartTranslate_shape original target w)
    as (k & g & gr & lower & K & _ & _ & R & G).
  split; [exists k, gr; tauto|].
  rewrite R, !length_app, length_map, length_firstn.
  assert (length gr <= 1)%nat
    by (destruct G as [-> | (url & _ & ->)]; simpl; lia).
  destruct (deepl_eligible target); simpl; lia.
Qed.

(** X14.  Without a Primary key ([DEEPL_KEY] unset or empty) no target
    makes the orchestrator call the Primary adapter, and no request of the
    run carries an [Authorization] header. *)
Theorem no_key_no_primary original target w :
  DEEPL_KEY = None \/ DEEPL_KEY = Some [] ->
  Forall (fun c => is_primary c = false)
    (entered (trace_of (smartTranslate original target w)))
  /\ Forall unauthenticated
       (requests (trace_of (smartTranslate original target w))).
Proof.
  intro K.
  assert (El : deepl_eligible target = false)
    by (unfold deepl_eligible; destruct K as [-> | ->]; reflexivity).
  destruct (smartTranslate_shape original target w)
    as (k & g & gr & lower & _ & E & L & R & G).
  rewrite El in E, R; simpl in E, R. rewrite E, R. split.
  - destruct L as [-> | ->]; [constructor|].
    constructor; [reflexivity|].
    apply Forall_app; split.
    + apply Forall_forall; intros c Hc.
      apply in_map_iff in Hc; destruct Hc as (b & <- & _); reflexivity.
    + destruct g; repeat constructor.
  - apply Forall_app; split.
    + apply Forall_forall; intros r Hr.
      apply in_map_iff in Hr; destruct Hr as (b & <- & _).
      unfold unauthenticated; simpl. vm_compute. intuition discriminate.
    + destruct G as [-> | (url & _ & ->)]; repeat constructor.
      unfold unauthenticated; simpl; tauto.
Qed.

(** X15.  Every provider function a run of [smartTranslate] enters is
    given the normalized text, never the original; the Primary is given
    the target as the caller wrote it, the Pooled and Last-Resort
    functions the base code; every endpoint attempted is one of the pool.
    The Primary comes first, the Last-Resort last. *)
Theorem smartTranslate_calls original target w :
  Forall (call_of original target)
    (entered (trace_of (smartTranslate original target w)))
  /\ exists k (g : bool) lower,
       entered (trace_of (smartTranslate original target w))
       = (if deepl_eligible target
          then [CallDeepL (preProcessText original) target] else [])
         ++ lower
       /\ (lower = []
           \/ lower
              = CallLibre (preProcessText original) (targetBase_of target)
                :: map (fun b => CallLibreAt b (preProcessText original)
                                   (targetBase_of target))
                     (firstn k libre_list)
                ++ (if g then [CallGoogle (preProcessText original)
                                 (targetBase_of target)] else [])).
Proof.
  destruct (smartTranslate_shape original target w)
    as (k & g & gr & lower & _ & E & L & _ & _).
  split; [|exists k, g, lower; tauto].
  rewrite E. apply Forall_app; split.
  - destruct (deepl_eligible target); repeat constructor.
  - destruct L as [-> | ->]; [constructor|].
    constructor; [split; reflexivity|].
    apply Forall_app; split.
    + apply Forall_forall; intros c Hc.
      apply in_map_iff in Hc; destruct Hc as (b & <- & Hb).
      repeat split.
      rewrite <- (firstn_skipn k libre_list); apply in_or_app; left; exact Hb.
    + destruct g; repeat constructor.
Qed.

End OrchestratorMore.

(* ================================================================== *)
(** ** What the caller gets *)

Section ResultFacts.

Context {RT : Runtime} {PR : Process} {NW : Network}.

Lemma preProcessText_nonempty x : x <> [] -> preProcessText x <> [].
Proof.
  intro H. unfold preProcessText.
  destruct (Map_get (toLowerCase (trim x)) dict) as [v|]; [|exact H].
  destruct (str_truthy v) eqn:T; [|exact H].
  apply str_truthy_nonempty, T.
Qed.

Lemma or_else_truthy o d : truthy d = true -> truthy (or_else o d) = true.
Proof.
  intro H; destruct o as [v|]; simpl; [|exact H].
  destruct (truthy v) eqn:T; [exact T | exact H].
Qed.

Lemma translateDeepL_truthy text target w v :
  text <> [] ->
  result_of (translateDeepL text target w) = Returned v -> truthy v = true.
Proof.
  intro Ht. rewrite translateDeepL_run; unfold result_of; simpl.
  destruct (fst (net (deepl_request text target) w)) as [e|res]; simpl;
    [discriminate|].
  destruct (res_ok res); [|discriminate].
  destruct (res_json res) as [e|data]; [discriminate|].
  intro H; injection H as <-.
  apply or_else_truthy, str_truthy_nonempty, Ht.
Qed.

Lemma translateLibreAt_truthy baseUrl text to w v :
  text <> [] ->
  result_of (translateLibreAt baseUrl text to w) = Returned v ->
  truthy v = true.
Proof.
  intro Ht. rewrite translateLibreAt_run; unfold result_of; simpl.
  destruct (fst (net (libre_request baseUrl text to) w)) as [e|res]; simpl;
    [discriminate|].
  destruct (res_ok res); [|discriminate].
  destruct (includes _ _); [|discriminate].
  destruct (res_json res) as [e|data]; [discriminate|].
  intro H; injection H as <-.
  apply or_else_truthy, str_truthy_nonempty, Ht.
Qed.

Lemma translateLibre_truthy text to w v :
  text <> [] ->
  result_of (translateLibre text to w) = Returned v -> truthy v = true.
Proof.
  intro Ht. rewrite translateLibre_unfold; unfold after, result_of at 1; simpl.
  pose proof (translateLibre_loop_spec text to libre_list None w) as S.
  destruct (translateLibre_loop libre_list text to None w) as [[[v'|e] w1] t1];
    simpl; [|discriminate].
  intro H; injection H as ->.
  destruct S as (bs & b & rest & es & w2 & t2 & t3 & _ & _ & R & _).
  apply (translateLibreAt_truthy b text to w2 v Ht).
  rewrite R; reflexivity.
Qed.

Lemma translateGooglePublic_truthy text to w v :
  text <> [] ->
  result_of (translateGooglePublic text to w) = Returned v -> truthy v = true.
Proof.
  intro Ht. rewrite translateGooglePublic_run.
  destruct (google_url text to) as [url|]; unfold result_of; simpl;
    [|discriminate].
  destruct (fst (net (google_request url) w)) as [e|res]; simpl; [discriminate|].
  destruct (res_ok res); [|discriminate].
  destruct (res_json res) as [e|json]; [discriminate|].
  destruct (google_chunks json) as [chunks|]; [|discriminate].
  destruct (join_values (lit " ") chunks) as [joined|]; [|discriminate].
  intro H; injection H as <-. simpl.
  destruct (str_truthy joined) eqn:J; [exact J|].
  apply str_truthy_nonempty, Ht.
Qed.

Lemma libre_then_google_truthy text base w v :
  text <> [] ->
  result_of (libre_then_google text base w) = Returned v -> truthy v = true.
Proof.
  intro Ht. rewrite libre_then_google_unfold.
  destruct (translateLibre text base w) as [[[v'|e] w1] t1] eqn:L.
  - intro H; injection H as <-.
    apply (translateLibre_truthy text base w v' Ht). rewrite L; reflexivity.
  - unfold after, result_of at 1; simpl.
    rewrite google_or_original_unfold.
    destruct (translateGooglePublic text base w1) as [[[v'|e'] w2] t2] eqn:G.
    + intro H; injection H as <-.
      apply (translateGooglePublic_truthy text base w1 v' Ht).
      rewrite G; reflexivity.
    + intro H; injection H as <-. apply str_truthy_nonempty, Ht.
Qed.

(** X16.  For a non-empty original text the value [smartTranslate]
    returns is truthy (in particular never the empty string), so the
    caller's [translated || '*Translation failed.*'] is the translation
    itself: the placeholder is never shown. *)
Theorem smartTranslate_result_truthy original target w :
  original <> [] ->
  exists v,
    result_of (smartTranslate original target w) = Returned v
    /\ truthy v = true
    /\ v <> JStr []
    /\ description v = v.
Proof.
  intro Ho.
  pose proof (preProcessText_nonempty original Ho) as Ht.
  assert (K : exists v, result_of (smartTranslate original target w) = Returned v
                        /\ truthy v = true).
  { rewrite smartTranslate_unfold.
    assert (L : exists v, result_of (libre_then_google (preProcessText original)
                                       (targetBase_of target) w) = Returned v
                          /\ truthy v = true).
    { destruct (libre_then_google_returns (preProcessText original)
                  (targetBase_of target) w) as (v & R & _).
      exists v; split; [exact R|].
      exact (libre_then_google_truthy _ _ _ _ Ht R). }
    destruct (deepl_eligible target); [|exact L].
    destruct (translateDeepL (preProcessText original) target w)
      as [[[v|e] w1] t1] eqn:D.
    - exists v; split; [reflexivity|].
      apply (translateDeepL_truthy (preProcessText original) target w v Ht).
      rewrite D; reflexivity.
    - unfold after, result_of at 1; simpl.
      destruct (libre_then_google_returns (preProcessText original)
                  (targetBase_of target) w1) as (v & R & _).
      exists v; split; [exact R|].
      exact (libre_then_google_truthy _ _ _ _ Ht R). }
  destruct K as (v & R & T).
  exists v. split; [exact R|]. split; [exact T|].
  split; [intros ->; discriminate T|].
  unfold description; simpl; rewrite T; reflexivity.
Qed.

End ResultFacts.

(* ================================================================== *)
(** ** More about the normalizer and the target code *)

Section MatchingFacts.

Context {RT : Runtime} {PR : Process}.

(** X17.  Two inputs with the same trimmed, lowercased form are either
    both replaced, by the same phrase, or both left as they are; so
    surrounding whitespace never changes which phrase is recognised.  The
    result is the empty string only for the empty input. *)
Theorem preProcessText_matching :
  (forall a b,
     lookup_key a = lookup_key b ->
     (In (lookup_key a) (map fst dict) /\ preProcessText a = preProcessText b)
     \/ (preProcessText a = a /\ preProcessText b = b))
  /\ (forall x, lookup_key (trim x) = lookup_key x)
  /\ (forall x, preProcessText x = [] <-> x = []).
Proof.
  split; [|split].
  - intros a b E.
    destruct (Map_get (lookup_key a) dict) as [v|] eqn:G.
    + left. pose proof (Map_get_In _ _ _ G) as H. split.
      * change (lookup_key a) with (fst (lookup_key a, v)).
        apply in_map, H.
      * rewrite (preProcessText_hit a v H).
        rewrite E in H. rewrite (preProcessText_hit b v H). reflexivity.
    + right. pose proof (Map_get_None _ _ G) as H. split.
      * apply preProcessText_miss, H.
      * rewrite E in H. apply preProcessText_miss, H.
  - intro x. unfold lookup_key. rewrite trim_idempotent. reflexivity.
  - intro x. split.
    + intro H. destruct x as [|c x]; [reflexivity|].
      exfalso. refine (preProcessText_nonempty (c :: x) _ H).
      discriminate.
    + intros ->. reflexivity.
Qed.

(** Case analysis on where [c] stands with respect to the letters. *)
Ltac ascii_cases c :=
  destruct (N.leb_spec 65 c), (N.leb_spec c 90),
    (N.leb_spec 97 c), (N.leb_spec c 122); simpl;
  repeat match goal with
         | |- context [?a <=? ?b] => destruct (N.leb_spec a b); simpl
         | |- context [?a <? ?b] => destruct (N.ltb_spec a b); simpl
         | |- context [?a =? ?b] => destruct (N.eqb_spec a b); simpl
         end;
  try reflexivity; try lia.

Lemma ascii_upper_lower c : ascii_upper (ascii_lower c) = ascii_upper c.
Proof. unfold ascii_upper, ascii_lower. ascii_cases c. Qed.

Lemma ascii_lower_upper c : ascii_lower (ascii_upper c) = ascii_lower c.
Proof. unfold ascii_upper, ascii_lower. ascii_cases c. Qed.

Lemma ascii_upper_idem c : ascii_upper (ascii_upper c) = ascii_upper c.
Proof. unfold ascii_upper. ascii_cases c. Qed.

Lemma ascii_lower_idem c : ascii_lower (ascii_lower c) = ascii_lower c.
Proof. unfold ascii_lower. ascii_cases c. Qed.

Lemma is_ascii_lower c : is_ascii (ascii_lower c) = is_ascii c.
Proof. unfold is_ascii, ascii_lower. ascii_cases c. Qed.

Lemma is_ascii_upper c : is_ascii (ascii_upper c) = is_ascii c.
Proof. unfold is_ascii, ascii_upper. ascii_cases c. Qed.

Lemma hyphen_lower c : (ascii_lower c =? 45) = (c =? 45).
Proof. unfold ascii_lower. ascii_cases c. Qed.

Lemma hyphen_upper c : (ascii_upper c =? 45) = (c =? 45).
Proof. unfold ascii_upper. ascii_cases c. Qed.

Lemma forallb_map_ascii f s :
  (forall c, is_ascii (f c) = is_ascii c) ->
  forallb is_ascii (map f s) = forallb is_ascii s.
Proof.
  intro H; induction s as [|c s IH]; simpl; [reflexivity|].
  rewrite H, IH; reflexivity.
Qed.

Lemma split_head_map f s :
  (forall c, (f c =? 45) = (c =? 45)) ->
  split_head 45 (map f s) = map f (split_head 45 s).
Proof.
  intro H; induction s as [|c s IH]; simpl; [reflexivity|].
  rewrite H. destruct (c =? 45); [reflexivity|]. simpl; rewrite IH; reflexivity.
Qed.

Lemma split_head_ascii s :
  forallb is_ascii s = true -> forallb is_ascii (split_head 45 s) = true.
Proof.
  induction s as [|c s IH]; simpl; [reflexivity|].
  intro H; apply andb_true_iff in H; destruct H as [Hc Hs].
  destruct (c =? 45); [reflexivity|]. simpl; rewrite Hc, (IH Hs); reflexivity.
Qed.

(** X18.  For a target code of ASCII characters the case of its letters
    does not change the route: the uppercased and the lowercased code are
    eligible for the Primary exactly when the code is, and they have its
    base code. *)
Theorem routing_ignores_case target :
  forallb is_ascii target = true ->
  deepl_eligible (toUpperCase target) = deepl_eligible target
  /\ deepl_eligible (toLowerCase target) = deepl_eligible target
  /\ targetBase_of (toUpperCase target) = targetBase_of target
  /\ targetBase_of (toLowerCase target) = targetBase_of target.
Proof.
  intro A.
  assert (U : toUpperCase target = map ascii_upper target)
    by (unfold toUpperCase; rewrite A; reflexivity).
  assert (L : toLowerCase target = map ascii_lower target)
    by (unfold toLowerCase; rewrite A; reflexivity).
  assert (AU : forallb is_ascii (map ascii_upper target) = true)
    by (rewrite (forallb_map_ascii _ _ is_ascii_upper); exact A).
  assert (AL : forallb is_ascii (map ascii_lower target) = true)
    by (rewrite (forallb_map_ascii _ _ is_ascii_lower); exact A).
  assert (UU : toUpperCase (toUpperCase target) = toUpperCase target).
  { rewrite U. unfold toUpperCase. rewrite AU, map_map.
    apply map_ext, ascii_upper_idem. }
  assert (UL : toUpperCase (toLowerCase target) = toUpperCase target).
  { rewrite L, U. unfold toUpperCase. rewrite AL, map_map.
    apply map_ext, ascii_upper_lower. }
  assert (B : forall f,
             (forall c, is_ascii (f c) = is_ascii c) ->
             (forall c, (f c =? 45) = (c =? 45)) ->
             (forall c, ascii_lower (f c) = ascii_lower c) ->
             targetBase_of (map f target) = targetBase_of target).
  { intros f F1 F2 F3. unfold targetBase_of, toLowerCase.
    rewrite (split_head_map f target F2).
    rewrite (forallb_map_ascii f _ F1), (split_head_ascii _ A), map_map.
    apply map_ext, F3. }
  unfold deepl_eligible. rewrite UU, UL, U, L.
  repeat split.
  - apply B; [apply is_ascii_upper | apply hyphen_upper | apply ascii_lower_upper].
  - apply B; [apply is_ascii_lower | apply hyphen_lower | apply ascii_lower_idem].
Qed.

End MatchingFacts.

(* ================================================================== *)
(** ** Time limits and the errors of a pool endpoint *)

Section EndpointFacts.

Context {RT : Runtime} {PR : Process} {NW : Network}.

(** X19.  In a run of [smartTranslate] only the requests to pool
    endpoints carry a time limit, of 8000 ms; the Primary's request and
    the Last-Resort request carry none. *)
Theorem only_pool_requests_are_timed original target w :
  Forall
    (fun r =>
       (req_abort_after r = Some 8000
        /\ exists b, In b libre_list
                     /\ r = libre_request b (preProcessText original)
                              (targetBase_of target))
       \/ (req_abort_after r = None
           /\ (r = deepl_request (preProcessText original) target
               \/ exists url, r = google_request url)))
    (requests (trace_of (smartTranslate original target w))).
Proof.
  destruct (smartTranslate_shape original target w)
    as (k & g & gr & lower & _ & _ & _ & R & G).
  rewrite R. apply Forall_app; split; [|apply Forall_app; split].
  - destruct (deepl_eligible target); [|constructor].
    constructor; [|constructor].
    right; split; [reflexivity | left; reflexivity].
  - apply Forall_forall; intros r Hr.
    apply in_map_iff in Hr; destruct Hr as (b & <- & Hb).
    left; split; [reflexivity|]. exists b; split; [|reflexivity].
    rewrite <- (firstn_skipn k libre_list); apply in_or_app; left; exact Hb.
  - destruct G as [-> | (url & _ & ->)]; [constructor|].
    constructor; [|constructor].
    right; split; [reflexivity | right; exists url; reflexivity].
Qed.

Lemma firstn_prefix {A} n (l : list A) :
  (length (firstn n l) <= n)%nat /\ exists rest, l = firstn n l ++ rest.
Proof.
  split; [apply firstn_le_length|].
  exists (skipn n l); symmetry; apply firstn_skipn.
Qed.

(** X20.  What a pool endpoint's answer makes of [translateLibreAt].  A
    rejected request is thrown on as it is.  A status outside 200-299
    gives the status error, whatever the content type, with at most the
    first 120 code units of the body.  Otherwise a content type that does
    not contain ["application/json"] (compared in lower case) gives the
    content-type error, with at most the first 80 code units of the body.
    Otherwise a body that does not parse gives the adapter's own JSON
    error, without any of the body, in place of the parser's.  Otherwise
    the adapter returns. *)
Theorem translateLibreAt_errors baseUrl text to w :
  (forall e w1,
     net (libre_request baseUrl text to) w = (inl e, w1) ->
     result_of (translateLibreAt baseUrl text to w) = Thrown e)
  /\ (forall res w1,
        net (libre_request baseUrl text to) w = (inr res, w1) ->
        (res_ok res = false ->
         exists excerpt,
           result_of (translateLibreAt baseUrl text to w)
           = Thrown (LibreStatusError (res_status res) baseUrl excerpt)
           /\ (length excerpt <= 120)%nat
           /\ exists rest, text_or_empty res = excerpt ++ rest)
        /\ (res_ok res = true ->
            includes (content_type_of res) (lit "application/json") = false ->
            exists excerpt,
              result_of (translateLibreAt baseUrl text to w)
              = Thrown (LibreContentTypeError (content_type_of res) baseUrl
                          excerpt)
              /\ (length excerpt <= 80)%nat
              /\ exists rest, text_or_empty res = excerpt ++ rest)
        /\ (res_ok res = true ->
            includes (content_type_of res) (lit "application/json") = true ->
            forall e, res_json res = inl e ->
            result_of (translateLibreAt baseUrl text to w)
            = Thrown (LibreJsonError baseUrl []))
        /\ (res_ok res = true ->
            includes (content_type_of res) (lit "application/json") = true ->
            forall data, res_json res = inr data ->
            result_of (translateLibreAt baseUrl text to w)
            = Returned (or_else (libre_field data) (JStr text)))).
Proof.
  rewrite translateLibreAt_run; unfold result_of; cbn [fst]. split.
  - intros e w1 ->; reflexivity.
  - intros res w1 ->; cbn [fst]; unfold libre_answer; cbv beta iota.
    split; [|split; [|split]].
    + intros ->. eexists; split; [reflexivity|]. apply firstn_prefix.
    + intros -> ->. eexists; split; [reflexivity|]. apply firstn_prefix.
    + intros -> -> e ->; reflexivity.
    + intros -> -> data ->; reflexivity.
Qed.

End EndpointFacts.

(* ================================================================== *)
(** ** More runs on concrete inputs *)

Import ConcreteMore.

(** Seven elements by three. *)
Lemma chunk_concat_witness :
  exists chunks,
    chunk 8 [1; 2; 3; 4; 5; 6; 7] 3 = Some chunks
    /\ concat chunks = [1; 2; 3; 4; 5; 6; 7]
    /\ Forall (fun c => (1 <= length c <= 3)%nat) chunks.
Proof.
  apply (chunk_concat 3 8 [1; 2; 3; 4; 5; 6; 7]); simpl; lia.
Defined.

Lemma chunk_slices_witness :
  exists chunks,
    chunk 8 [1; 2; 3; 4; 5; 6; 7] 3 = Some chunks
    /\ (forall k, (k < length chunks)%nat ->
          nth k chunks [] = slice (k * 3) (k * 3 + 3) [1; 2; 3; 4; 5; 6; 7])
    /\ (length [1; 2; 3; 4; 5; 6; 7] <= length chunks * 3)%nat
    /\ (length chunks * 3 < length [1; 2; 3; 4; 5; 6; 7] + 3)%nat.
Proof.
  apply (chunk_slices 3 8 [1; 2; 3; 4; 5; 6; 7]); simpl; lia.
Defined.

Lemma chunk_size_zero_witness :
  chunk 1000 [1; 2] 0 = None /\ chunk 1 (@nil N) 0 = Some [].
Proof.
  split.
  - apply (proj1 chunk_size_zero 1000%nat [1; 2]); discriminate.
  - apply (proj2 chunk_size_zero 0%nat 0%nat).
Defined.

Lemma FLAG_TO_LANG_keys_distinct : NoDup (map fst FLAG_TO_LANG).
Proof.
  unfold FLAG_TO_LANG; simpl.
  repeat (constructor; [simpl; intuition discriminate|]).
  constructor.
Qed.

(** The program's table: nine languages, all offered. *)
Lemma buildFlagRows_first_ten_witness :
  exists rows,
    buildFlagRows (lit "1234") = Some rows
    /\ (length rows <= 2)%nat
    /\ Forall (fun row => (1 <= length row <= 5)%nat) rows
    /\ concat rows = map (button_of (lit "1234")) FLAG_TO_LANG.
Proof.
  exact (buildFlagRows_first_ten FLAG_TO_LANG FLAG_TO_LANG_keys_distinct
           (lit "1234")).
Defined.

Lemma customId_round_trip_witness :
  parse_customId (lit "tr:PT-PT:1234")
  = Some (Some (lit "PT-PT"), Some (lit "1234"))
  /\ parse_customId (customId_of (lit "ES") (lit "12:34"))
     = Some (Some (lit "ES"), Some (lit "12")).
Proof.
  split.
  - refine (proj2 (customId_round_trip (lit "PT-PT") (lit "1234") _) _);
      vm_compute; intuition discriminate.
  - refine (proj1 (customId_round_trip (lit "ES") (lit "12:34") _));
      vm_compute; intuition discriminate.
Defined.

Lemma parse_customId_parts_witness :
  exists rest,
    lit "tr:FR" = lit "tr:" ++ rest
    /\ Some (lit "FR") = Some (split_head 58 rest)
    /\ (@None jsstring = None <-> ~ In 58 rest).
Proof.
  apply (parse_customId_parts (lit "tr:FR") (Some (lit "FR")) None).
  reflexivity.
Defined.

Lemma buttons_are_read_back_witness :
  exists lang,
    In ([0xd83c; 0xddf5; 0xd83c; 0xddf1], lang) FLAG_TO_LANG
    /\ parse_customId (lit "tr:PL:1234") = Some (Some lang, Some (lit "1234")).
Proof.
  refine (buttons_are_read_back (lit "1234")
            [map (button_of (lit "1234")) (firstn 5 FLAG_TO_LANG);
             map (button_of (lit "1234")) (skipn 5 FLAG_TO_LANG)]
            (button_of (lit "1234")
               ([0xd83c; 0xddf5; 0xd83c; 0xddf1], lit "PL")) _ _ _).
  - vm_compute; intuition discriminate.
  - reflexivity.
  - vm_compute; tauto.
Defined.

Lemma isAllowedChannel_spec_witness :
  (forall channel, isAllowedChannel (CH := channels_of " , ") channel = true)
  /\ isAllowedChannel (CH := channels_of "12, 34 ,") None = false
  /\ isAllowedChannel (CH := channels_of "12, 34 ,") (Some (lit "34")) = true.
Proof.
  split; [|split].
  - apply (proj1 (proj2 (isAllowedChannel_spec (CH := channels_of " , ")))).
    reflexivity.
  - apply (proj2 (proj2 (isAllowedChannel_spec
                           (CH := channels_of "12, 34 ,")))).
    discriminate.
  - apply (proj2 (proj2 (isAllowedChannel_spec
                           (CH := channels_of "12, 34 ,")))).
    + discriminate.
    + split; [discriminate|]. exists (lit " 34 ").
      split; [vm_compute; tauto | reflexivity].
Defined.

Lemma google_url_is_safe_witness :
  exists tl q,
    encodeURIComponent (lit "pt") = Some tl
    /\ encodeURIComponent (lit "a&b=c d") = Some q
    /\ lit "https://translate.googleapis.com/translate_a/single?client=gtx&sl=auto&tl=pt&dt=t&q=a%26b%3Dc%20d"
       = lit "https://translate.googleapis.com/translate_a/single"
         ++ lit "?client=gtx&sl=auto&tl=" ++ tl ++ lit "&dt=t&q=" ++ q
    /\ Forall (fun c => uri_safe c = true) tl
    /\ Forall (fun c => uri_safe c = true) q.
Proof.
  refine (proj1 (google_url_is_safe (lit "a&b=c d") (lit "pt") _ _ _ _)).
  - repeat constructor.
  - repeat constructor.
  - reflexivity.
Defined.

(** A text that is a lone high surrogate, and a plain one. *)
Lemma translateGooglePublic_requests_witness :
  run_google [] [0xd83c] "pt"
  = (Thrown URIError_malformed, [], [Enter (CallGoogle [0xd83c] (lit "pt"))])
  /\ exists url, google_url arigatou (lit "pt") = Some url.
Proof.
  split.
  - apply (proj1 (translateGooglePublic_requests (NW := scripted)
                    [0xd83c] (lit "pt") [])).
    reflexivity.
  - apply (proj2 (proj2 (translateGooglePublic_requests (NW := scripted)
                           arigatou (lit "pt") []))).
    + repeat constructor.
    + repeat constructor.
Defined.

Lemma no_key_no_primary_witness :
  Forall (fun c => is_primary c = false)
    (entered (trace_of (run_smart without_key [] (lit "hi") "EN-US")))
  /\ Forall unauthenticated
       (requests (trace_of (run_smart without_key [] (lit "hi") "EN-US"))).
Proof.
  apply (no_key_no_primary (PR := without_key) (NW := scripted)
           (lit "hi") (lit "EN-US") []).
  left; reflexivity.
Defined.

Lemma smartTranslate_result_truthy_witness :
  exists v,
    result_of (run_smart with_key [json_response 200 (deepl_body [])]
                 (lit "hi") "EN-US")
    = Returned v
    /\ truthy v = true
    /\ v <> JStr []
    /\ description v = v.
Proof.
  apply (smartTranslate_result_truthy (PR := with_key) (NW := scripted)
           (lit "hi") (lit "EN-US") [json_response 200 (deepl_body [])]).
  discriminate.
Defined.

Lemma preProcessText_matching_witness :
  (In (lookup_key (lit " Dankie")) (map fst dict)
   /\ preProcessText (lit " Dankie") = preProcessText (lit "DANKIE  "))
  \/ (preProcessText (lit " Dankie") = lit " Dankie"
      /\ preProcessText (lit "DANKIE  ") = lit "DANKIE  ").
Proof.
  apply (proj1 preProcessText_matching (lit " Dankie") (lit "DANKIE  ")).
  reflexivity.
Defined.

Lemma routing_ignores_case_witness :
  deepl_eligible (PR := with_key) (toUpperCase (lit "pt-Pt"))
  = deepl_eligible (PR := with_key) (lit "pt-Pt")
  /\ deepl_eligible (PR := with_key) (toLowerCase (lit "pt-Pt"))
     = deepl_eligible (PR := with_key) (lit "pt-Pt")
  /\ targetBase_of (toUpperCase (lit "pt-Pt")) = targetBase_of (lit "pt-Pt")
  /\ targetBase_of (toLowerCase (lit "pt-Pt")) = targetBase_of (lit "pt-Pt").
Proof.
  apply (routing_ignores_case (PR := with_key) (lit "pt-Pt")).
  reflexivity.
Defined.

(** An endpoint that answers 503 with a long page, and one that answers
    200 with JSON served under a mixed-case content type. *)
Lemma translateLibreAt_errors_witness :
  (exists excerpt,
     result_of (translateLibreAt (lit "http://a") (lit "hi") (lit "pt")
                  [inr page_503])
     = Thrown (LibreStatusError 503 (lit "http://a") excerpt)
     /\ (length excerpt <= 120)%nat
     /\ exists rest, repeat 60 200 = excerpt ++ rest)
  /\ result_of (translateLibreAt (lit "http://a") (lit "hi") (lit "pt")
                  [inr json_mixed_case])
     = Returned (JStr (lit "ola")).
Proof.
  split.
  - refine (proj1 (proj2 (translateLibreAt_errors (NW := scripted)
                            (lit "http://a") (lit "hi") (lit "pt")
                            [inr page_503]) page_503 [] _) _); reflexivity.
  - refine (proj2 (proj2 (proj2 (proj2 (translateLibreAt_errors
                                          (NW := scripted)
                                          (lit "http://a") (lit "hi")
                                          (lit "pt") [inr json_mixed_case])
                                   json_mixed_case [] _)))
              _ _ (libre_body (lit "ola")) _); reflexivity.
Defined.
